(** * Session cache of [static/js/auth.js]

    A shallow embedding of the module's two variables, the browser objects
    it touches (localStorage, window.location, console, fetch, promises) and
    its five exported functions, followed by the properties of the session
    cache.

    The module is asynchronous: [getCurrentUser] is an async function whose
    inner async arrow function suspends at two [await]s.  The embedding
    follows the event loop: every synchronous run of code (a call of an
    exported function, or the resumption of the suspended arrow function when
    the awaited promise settles) is one atomic step over an explicit state,
    and any exported function may be called between two steps.

    A step is taken together with the promise jobs it queues: when the arrow
    function ends, the promises that [getCurrentUser] returned for it take
    its outcome in the same step.  In the browser each of them does so in a
    microtask of its own right after the resumption; code that someone else
    queued to run in between is outside the model. *)

From stdpp Require Import gmap strings list fin_maps.

(* String literals, with the list and number notations in front of the
   string ones. *)
Open Scope string_scope.
Open Scope list_scope.
Open Scope nat_scope.

(** ** JavaScript values *)

(** The values the module handles: [null], the strings of localStorage and
    whatever [response.json()] yields.  The code inspects a number only
    through its truthiness, so numbers are kept as integers. *)
#[local] Set Warnings "-register-all".
Inductive JsValue : Type :=
  | JUndefined
  | JNull
  | JBool (b : bool)
  | JNum (n : Z)
  | JStr (s : string)
  | JArr (items : list JsValue)
  | JObj (fields : list (string * JsValue)).

(** The conversion behind [if (x)] and [!x]. *)
Definition ToBoolean (v : JsValue) : bool :=
  match v with
  | JUndefined | JNull => false
  | JBool b => b
  | JNum n => negb (n =? 0)%Z
  | JStr s => match s with EmptyString => false | String _ _ => true end
  | JArr _ | JObj _ => true
  end.

(** What [localStorage.getItem] hands to the program: a string or [null]. *)
Definition item_value (o : option string) : JsValue :=
  match o with
  | Some s => JStr s
  | None => JNull
  end.

(** A thrown value or rejection reason. *)
Record JsError : Type := mkError { err_name : string; err_message : string }.

(** ** Promises *)

(** A promise is a cell of the promise heap.  [Following p] is a promise that
    was resolved with the still pending promise [p] and will take its
    outcome. *)
Inductive PromiseState : Type :=
  | Pending
  | Fulfilled (v : JsValue)
  | Rejected (e : JsError)
  | Following (p : nat).

(** How an awaited platform promise settles. *)
Inductive Settled (A : Type) : Type :=
  | Resolve (a : A)
  | Reject (e : JsError).
Arguments Resolve {A} a.
Arguments Reject {A} e.

(** The part of a [Response] the code reads. *)
Record Response : Type := mkResponse { ok : bool }.

(** A network call as [fetch] receives it. *)
Record Request : Type := mkRequest {
  url : string;
  headers : list (string * string)
}.

(** ** Suspended async bodies *)

(** The two [await]s of the arrow function (lines 21 and 28). *)
Inductive AwaitPoint : Type := AwaitFetch | AwaitJson.

Global Instance AwaitPoint_eq_dec : EqDecision AwaitPoint.
Proof. solve_decision. Defined.

(** An activation of the arrow function of lines 19-40 parked at an [await]:
    the promise it will settle and the network call it waits on. *)
Record Task : Type := mkTask {
  task_promise : nat;
  task_request : nat;
  task_at : AwaitPoint
}.

(** ** State *)

Record State : Type := mkState {
  currentUser : JsValue;                 (* line 1 *)
  fetchPromise : option nat;             (* line 2, [None] is [null] *)
  localStorage : gmap string string;
  location_href : string;                (* window.location.href as last assigned *)
  console : list (string * JsError);     (* console.error output *)
  promises : list PromiseState;          (* promise heap, a promise is its index *)
  network : list Request;                (* every call of fetch so far *)
  tasks : list Task                      (* suspended arrow functions *)
}.

(** The module right after it is loaded on the page [href], with whatever
    the browser has persisted. *)
Definition initial (storage : gmap string string) (href : string) : State :=
  {| currentUser := JNull; fetchPromise := None; localStorage := storage;
     location_href := href; console := []; promises := []; network := [];
     tasks := [] |}.

(** ** A state monad for the synchronous runs *)

Definition M (A : Type) : Type := State → A * State.

Global Instance M_ret : MRet M := λ A (a : A) s, (a, s).
Global Instance M_bind : MBind M := λ A B (f : A → M B) (m : M A) s,
  let '(a, s') := m s in f a s'.

Definition get {A : Type} (field : State → A) : M A := λ s, (field s, s).

Definition set_currentUser (v : JsValue) : M unit := λ s,
  (tt, {| currentUser := v; fetchPromise := fetchPromise s;
          localStorage := localStorage s; location_href := location_href s;
          console := console s; promises := promises s; network := network s;
          tasks := tasks s |}).

Definition set_fetchPromise (p : option nat) : M unit := λ s,
  (tt, {| currentUser := currentUser s; fetchPromise := p;
          localStorage := localStorage s; location_href := location_href s;
          console := console s; promises := promises s; network := network s;
          tasks := tasks s |}).

Definition set_localStorage (m : gmap string string) : M unit := λ s,
  (tt, {| currentUser := currentUser s; fetchPromise := fetchPromise s;
          localStorage := m; location_href := location_href s;
          console := console s; promises := promises s; network := network s;
          tasks := tasks s |}).

Definition set_location_href (h : string) : M unit := λ s,
  (tt, {| currentUser := currentUser s; fetchPromise := fetchPromise s;
          localStorage := localStorage s; location_href := h;
          console := console s; promises := promises s; network := network s;
          tasks := tasks s |}).

Definition set_console (c : list (string * JsError)) : M unit := λ s,
  (tt, {| currentUser := currentUser s; fetchPromise := fetchPromise s;
          localStorage := localStorage s; location_href := location_href s;
          console := c; promises := promises s; network := network s;
          tasks := tasks s |}).

Definition set_promises (h : list PromiseState) : M unit := λ s,
  (tt, {| currentUser := currentUser s; fetchPromise := fetchPromise s;
          localStorage := localStorage s; location_href := location_href s;
          console := console s; promises := h; network := network s;
          tasks := tasks s |}).

Definition set_network (n : list Request) : M unit := λ s,
  (tt, {| currentUser := currentUser s; fetchPromise := fetchPromise s;
          localStorage := localStorage s; location_href := location_href s;
          console := console s; promises := promises s; network := n;
          tasks := tasks s |}).

Definition set_tasks (t : list Task) : M unit := λ s,
  (tt, {| currentUser := currentUser s; fetchPromise := fetchPromise s;
          localStorage := localStorage s; location_href := location_href s;
          console := console s; promises := promises s; network := network s;
          tasks := t |}).

(** ** Browser primitives *)

(** localStorage is taken to be available: its three methods do not throw. *)

Definition localStorage_getItem (key : string) : M (option string) :=
  m ← get localStorage; mret (m !! key).

Definition localStorage_setItem (key value : string) : M unit :=
  m ← get localStorage; set_localStorage (<[key := value]> m).

Definition localStorage_removeItem (key : string) : M unit :=
  m ← get localStorage; set_localStorage (delete key m).

Definition console_error (msg : string) (e : JsError) : M unit :=
  c ← get console; set_console (c ++ [(msg, e)]).

(** A fresh pending promise. *)
Definition new_promise : M nat :=
  h ← get promises; set_promises (h ++ [Pending]);; mret (length h).

(** What a promise that was following [p] becomes when [p] settles. *)
Definition adopt (p : nat) (outcome st : PromiseState) : PromiseState :=
  match st with
  | Following r => if decide (r = p) then outcome else st
  | _ => st
  end.

(** The heap once promise [p] has settled: the promises that follow it take
    the outcome.  The adoption is folded into the settlement, so the moment
    at which [p] is settled and a follower is not yet is not a state of its
    own. *)
Definition settled_heap (p : nat) (outcome : PromiseState)
    (h : list PromiseState) : list PromiseState :=
  adopt p outcome <$> <[p := outcome]> h.

Definition settle_promise (p : nat) (outcome : PromiseState) : M unit :=
  h ← get promises; set_promises (settled_heap p outcome h).

(** [return p] inside an async function whose promise is [q]: [q] takes the
    state of [p] if [p] is settled and follows it otherwise. *)
Definition resolve_with_promise (q p : nat) : M unit :=
  h ← get promises;
  match h !! p with
  | Some (Fulfilled v) => settle_promise q (Fulfilled v)
  | Some (Rejected e) => settle_promise q (Rejected e)
  | Some (Following r) => set_promises (<[q := Following r]> h)
  | Some Pending | None => set_promises (<[q := Following p]> h)
  end.

(** [fetch(url, {headers})] records the network call and returns at once;
    the platform function never throws, a failure is a rejection of the
    promise it returns.  The call is named by its position in [network]. *)
Definition fetch (u : string) (hs : list (string * string)) : M nat :=
  n ← get network; set_network (n ++ [mkRequest u hs]);; mret (length n).

(** Park the running arrow function at an [await]. *)
Definition suspend (t : Task) : M unit :=
  ts ← get tasks; set_tasks (ts ++ [t]).

(** ** The module *)

(** What a [try] block, a [catch] clause or a [finally] clause hands on:
    a [return], a thrown value, or the body parked at an [await]. *)
Inductive Completion : Type :=
  | Normal (v : JsValue)
  | Throw (e : JsError)
  | Suspended.

(** The template literal of line 23; a [null] would print as its name. *)
Definition bearer (token : option string) : string :=
  "Bearer " +:+ default "null" token.

(** Lines 19-26: the arrow function is called, runs up to its first [await]
    and leaves its promise behind. *)
Definition start_fetch (token : option string) : M nat :=
  p ← new_promise;
  rid ← fetch "/api/users/me" [("Authorization", bearer token)];
  suspend (mkTask p rid AwaitFetch);;
  mret p.

(** Lines 4-43.  [q] is the promise of the async function itself: the caller
    receives it whichever [return] is taken. *)
Definition getCurrentUser : M nat :=
  q ← new_promise;
  user ← get currentUser;
  if ToBoolean user then
    settle_promise q (Fulfilled user);; mret q
  else
    pending ← get fetchPromise;
    match pending with
    | Some p => resolve_with_promise q p;; mret q
    | None =>
        token ← localStorage_getItem "access_token";
        if negb (ToBoolean (item_value token)) then
          settle_promise q (Fulfilled JNull);; mret q
        else
          p ← start_fetch token;
          set_fetchPromise (Some p);;
          pending ← get fetchPromise;
          match pending with
          | Some p' => resolve_with_promise q p'
          | None => settle_promise q (Fulfilled JNull)
          end;;
          mret q
    end.

(** Lines 21-33 from the first [await] on, once the promise of [fetch] has
    settled: a rejection is thrown at the [await]. *)
Definition try_after_fetch (t : Task) (o : Settled Response) : M Completion :=
  match o with
  | Reject e => mret (Throw e)
  | Resolve response =>
      if ok response then
        suspend (mkTask (task_promise t) (task_request t) AwaitJson);;
        mret Suspended
      else
        localStorage_removeItem "access_token";;
        mret (Normal JNull)
  end.

(** Lines 28-29 from the second [await] on, once the promise of
    [response.json()] has settled. *)
Definition try_after_json (o : Settled JsValue) : M Completion :=
  match o with
  | Reject e => mret (Throw e)
  | Resolve body =>
      set_currentUser body;;
      user ← get currentUser;
      mret (Normal user)
  end.

(** Lines 34-36. *)
Definition catch_clause (c : Completion) : M Completion :=
  match c with
  | Throw error =>
      console_error "Error fetching current user:" error;;
      mret (Normal JNull)
  | _ => mret c
  end.

(** Lines 37-39. *)
Definition finally_clause (c : Completion) : M Completion :=
  match c with
  | Suspended => mret c
  | _ => set_fetchPromise None;; mret c
  end.

(** The end of an async body settles its promise. *)
Definition complete_async (p : nat) (c : Completion) : M unit :=
  match c with
  | Normal v => settle_promise p (Fulfilled v)
  | Throw e => settle_promise p (Rejected e)
  | Suspended => mret tt
  end.

(** One resumption of the arrow function: the rest of the [try] block, then
    [catch] and [finally]. *)
Definition resume (t : Task) (body : M Completion) : M unit :=
  c ← body;
  c ← catch_clause c;
  c ← finally_clause c;
  complete_async (task_promise t) c.

(** Lines 45-49. *)
Definition logout : M JsValue :=
  localStorage_removeItem "access_token";;
  set_currentUser JNull;;
  set_location_href "/";;
  mret JUndefined.

(** Lines 51-53. *)
Definition getToken : M JsValue :=
  token ← localStorage_getItem "access_token";
  mret (item_value token).

(** Lines 55-57. *)
Definition setToken (token : string) : M JsValue :=
  localStorage_setItem "access_token" token;;
  mret JUndefined.

(** Lines 59-61. *)
Definition clearUserCache : M JsValue :=
  set_currentUser JNull;;
  mret JUndefined.

(** ** The event loop *)

(** What can happen next: the page calls an exported function, the
    platform settles the promise a suspended arrow function awaits, or
    someone else (other code of the page, another tab) writes or removes an
    entry of the shared localStorage. *)
Inductive Event : Type :=
  | CallGetCurrentUser
  | CallLogout
  | CallGetToken
  | CallSetToken (token : string)
  | CallClearUserCache
  | FetchSettles (rid : nat) (o : Settled Response)
  | JsonSettles (rid : nat) (o : Settled JsValue)
  | StorageChanged (key : string) (value : option string).

Definition waits_on (rid : nat) (a : AwaitPoint) (t : Task) : Prop :=
  task_request t = rid ∧ task_at t = a.

Global Instance waits_on_dec rid a t : Decision (waits_on rid a t).
Proof. unfold waits_on. apply _. Defined.

(** Unpark the arrow function that awaits network call [rid] at [a]. *)
Definition take_task (rid : nat) (a : AwaitPoint) (s : State)
  : option (Task * State) :=
  match list_find (waits_on rid a) (tasks s) with
  | Some (i, t) => Some (t, (set_tasks (delete i (tasks s)) s).2)
  | None => None
  end.

(** One step; [None] when the event cannot happen in [s]. *)
Definition step (e : Event) (s : State) : option State :=
  match e with
  | CallGetCurrentUser => Some (getCurrentUser s).2
  | CallLogout => Some (logout s).2
  | CallGetToken => Some (getToken s).2
  | CallSetToken token => Some (setToken token s).2
  | CallClearUserCache => Some (clearUserCache s).2
  | FetchSettles rid o =>
      match take_task rid AwaitFetch s with
      | Some (t, s') => Some (resume t (try_after_fetch t o) s').2
      | None => None
      end
  | JsonSettles rid o =>
      match take_task rid AwaitJson s with
      | Some (t, s') => Some (resume t (try_after_json o) s').2
      | None => None
      end
  | StorageChanged key (Some value) =>
      Some (localStorage_setItem key value s).2
  | StorageChanged key None =>
      Some (localStorage_removeItem key s).2
  end.

Fixpoint run (es : list Event) (s : State) : option State :=
  match es with
  | [] => Some s
  | e :: es' =>
      match step e s with
      | Some s' => run es' s'
      | None => None
      end
  end.

(** The states the module can be in. *)
Inductive reachable : State → Prop :=
  | reachable_initial storage href : reachable (initial storage href)
  | reachable_step s e s' : reachable s → step e s = Some s' → reachable s'.

(** ** Predicates on states and events *)

(** Whether a promise has an outcome yet. *)
Definition is_settled (st : option PromiseState) : bool :=
  match st with
  | Some (Fulfilled _) | Some (Rejected _) => true
  | _ => false
  end.

(** No promise follows a promise that is not on the heap. *)
Definition heap_closed (h : list PromiseState) : Prop :=
  ∀ i r, h !! i = Some (Following r) → r < length h.

(** At most one arrow function is suspended.  While one is, the marker is
    its promise, that promise is pending, no user is cached and its network
    call has been made; while none is, the marker is [null]. *)
Definition in_flight (s : State) : Prop :=
  match tasks s with
  | [] => fetchPromise s = None
  | [t] =>
      fetchPromise s = Some (task_promise t) ∧
      promises s !! task_promise t = Some Pending ∧
      ToBoolean (currentUser s) = false ∧
      task_request t < length (network s)
  | _ => False
  end.

Record Inv (s : State) : Prop := mkInv {
  inv_flight : in_flight s;
  (* only the promise of the pending fetch is pending *)
  inv_pending : ∀ i, promises s !! i = Some Pending → fetchPromise s = Some i;
  (* only the promise of the pending fetch is followed *)
  inv_follow : ∀ i r, promises s !! i = Some (Following r) → fetchPromise s = Some r;
  (* no promise of the module is ever rejected *)
  inv_reject : ∀ i e, promises s !! i ≠ Some (Rejected e)
}.

(** The settlements that take the arrow function parked at [a] on network
    call [rid] to its end: a non-OK response or a rejection at the first
    [await], anything at the second.  (An OK response at the first [await]
    only moves it to the second.) *)
Definition ends_fetch (rid : nat) (a : AwaitPoint) (e : Event) : Prop :=
  match a, e with
  | AwaitFetch, FetchSettles rid' (Resolve response) =>
      rid' = rid ∧ ok response = false
  | AwaitFetch, FetchSettles rid' (Reject _) => rid' = rid
  | AwaitJson, JsonSettles rid' _ => rid' = rid
  | _, _ => False
  end.

(** The states in which a call of [getCurrentUser] gets past none of the
    three guards of lines 5, 10 and 15 together, so that it does not fetch. *)
Definition idle (s : State) : Prop :=
  ToBoolean (currentUser s) = true ∨
  is_Some (fetchPromise s) ∨
  ToBoolean (item_value (localStorage s !! "access_token")) = false.

(** The events that are neither a call of [getCurrentUser] nor part of a
    fetch. *)
Definition bystander (e : Event) : bool :=
  match e with
  | CallLogout | CallGetToken | CallSetToken _ | CallClearUserCache
  | StorageChanged _ _ => true
  | _ => false
  end.

(** A network call to the identity endpoint that carries a non-empty
    bearer token and nothing else. *)
Definition identity_call (r : Request) : Prop :=
  ∃ tok, tok ≠ "" ∧
    r = mkRequest "/api/users/me" [("Authorization", "Bearer " +:+ tok)].

Definition is_call (e : Event) : bool :=
  match e with CallGetCurrentUser => true | _ => false end.

Definition is_logout (e : Event) : bool :=
  match e with CallLogout => true | _ => false end.

(** The events that run code of the module; the other ones are writes to
    localStorage by someone else. *)
Definition module_event (e : Event) : bool :=
  match e with StorageChanged _ _ => false | _ => true end.

(** ** Sample data *)

(** A page with a token in localStorage, as the module finds it when it is
    loaded, and the user object of the remote endpoint. *)
Definition signed_in : State := initial {["access_token" := "t"]} "/app".

Definition alice : JsValue := JObj [("id", JNum 1); ("name", JStr "A")].

Definition identity_request : Request :=
  mkRequest "/api/users/me" [("Authorization", "Bearer t")].

(** * Properties *)

(** ** Concrete runs *)

(** Two calls in a row share one network call and one pending promise. *)
Example two_calls_one_request :
  (λ s, (network s, fetchPromise s, promises s)) <$>
    run [CallGetCurrentUser; CallGetCurrentUser] signed_in =
  Some ([identity_request], Some 1, [Following 1; Pending; Following 1]).
Proof. reflexivity. Qed.

(** An OK response with a body: both callers get the user, who is cached. *)
Example ok_response_is_cached :
  (λ s, (currentUser s, fetchPromise s, promises s, length (network s))) <$>
    run [CallGetCurrentUser; CallGetCurrentUser;
         FetchSettles 0 (Resolve (mkResponse true));
         JsonSettles 0 (Resolve alice);
         CallGetCurrentUser] signed_in =
  Some (alice, None,
        [Fulfilled alice; Fulfilled alice; Fulfilled alice; Fulfilled alice], 1).
Proof. reflexivity. Qed.

(** A non-OK response: the token is gone and the caller gets [null]. *)
Example not_ok_response_drops_token :
  (λ s, (localStorage s !! "access_token", currentUser s, fetchPromise s,
         promises s)) <$>
    run [CallGetCurrentUser; FetchSettles 0 (Resolve (mkResponse false))]
        signed_in =
  Some (None, JNull, None, [Fulfilled JNull; Fulfilled JNull]).
Proof. reflexivity. Qed.

(** A network error: logged, the token stays, the caller gets [null]. *)
Example network_error_keeps_token :
  (λ s, (localStorage s !! "access_token", console s, fetchPromise s,
         promises s)) <$>
    run [CallGetCurrentUser;
         FetchSettles 0 (Reject (mkError "TypeError" "Failed to fetch"))]
        signed_in =
  Some (Some "t",
        [("Error fetching current user:", mkError "TypeError" "Failed to fetch")],
        None, [Fulfilled JNull; Fulfilled JNull]).
Proof. reflexivity. Qed.

(** A settlement nobody waits for cannot happen. *)
Example no_settlement_without_fetch :
  run [FetchSettles 0 (Resolve (mkResponse true))] signed_in = None.
Proof. reflexivity. Qed.

(** ** Running the monad *)

Ltac exec :=
  cbv [getCurrentUser start_fetch logout getToken setToken clearUserCache
       resume try_after_fetch try_after_json catch_clause finally_clause
       complete_async take_task
       localStorage_getItem localStorage_setItem localStorage_removeItem
       console_error new_promise settle_promise resolve_with_promise fetch
       suspend get set_currentUser set_fetchPromise set_localStorage
       set_location_href set_console set_promises set_network set_tasks
       mbind M_bind mret M_ret fst snd
       currentUser fetchPromise localStorage location_href console promises
       network tasks task_promise task_request task_at ok].

(** ** The promise heap *)

Lemma adopt_settled p o st :
  (∀ r, st ≠ Following r) → adopt p o st = st.
Proof. destruct st; intros H; try reflexivity. by destruct (H p0). Qed.

Lemma settled_heap_lookup p o (h : list PromiseState) i :
  settled_heap p o h !! i = adopt p o <$> (<[p := o]> h !! i).
Proof. unfold settled_heap. apply list_lookup_fmap. Qed.

Lemma settled_heap_self p o (h : list PromiseState) :
  p < length h → (∀ r, o ≠ Following r) → settled_heap p o h !! p = Some o.
Proof.
  intros Hp Ho. rewrite settled_heap_lookup, list_lookup_insert_eq by done.
  simpl. by rewrite adopt_settled.
Qed.

Lemma settled_heap_other p o (h : list PromiseState) i :
  i ≠ p → settled_heap p o h !! i = adopt p o <$> (h !! i).
Proof.
  intros Hi. by rewrite settled_heap_lookup, list_lookup_insert_ne.
Qed.

(** Settling a promise nobody follows changes that promise only. *)
Lemma settled_heap_unfollowed p o (h : list PromiseState) :
  (∀ i r, h !! i = Some (Following r) → r ≠ p) →
  settled_heap p o h = <[p := o]> h.
Proof.
  intros Hf. apply list_eq. intros i. rewrite settled_heap_lookup.
  destruct (decide (i = p)) as [->|Hne].
  - destruct (decide (p < length h)) as [Hlt|Hge].
    + rewrite list_lookup_insert_eq by done. simpl. f_equal.
      destruct o; try reflexivity. simpl. case_decide; [|done].
      subst. reflexivity.
    + rewrite list_insert_ge by lia.
      rewrite (lookup_ge_None_2 h p) by lia. reflexivity.
  - rewrite list_lookup_insert_ne by done.
    destruct (h !! i) as [st|] eqn:E; [|done]. simpl. f_equal.
    destruct st; try reflexivity. simpl. case_decide; [|done].
    subst. by destruct (Hf _ _ E).
Qed.

Lemma insert_fresh_app (h : list PromiseState) (st st' : PromiseState) tl :
  <[length h := st']> (h ++ st :: tl) = h ++ st' :: tl.
Proof.
  rewrite insert_app_r_alt by lia. by rewrite Nat.sub_diag.
Qed.

Lemma settle_fresh (h : list PromiseState) o :
  heap_closed h →
  settled_heap (length h) o (h ++ [Pending]) = h ++ [o].
Proof.
  intros Hc. rewrite settled_heap_unfollowed.
  - apply insert_fresh_app.
  - intros i r Hi ->. apply lookup_app_Some in Hi as [Hi|[_ Hi]].
    + apply Hc in Hi. lia.
    + by destruct (i - length h) as [|[|]].
Qed.

(** ** The four ways through [getCurrentUser] *)

(** Lines 5-7: a truthy cached user is returned as it is. *)
Lemma getCurrentUser_cached s :
  heap_closed (promises s) →
  ToBoolean (currentUser s) = true →
  getCurrentUser s =
    (length (promises s),
     {| currentUser := currentUser s; fetchPromise := fetchPromise s;
        localStorage := localStorage s; location_href := location_href s;
        console := console s;
        promises := promises s ++ [Fulfilled (currentUser s)];
        network := network s; tasks := tasks s |}).
Proof.
  intros Hc Hu. destruct s as [u fp ls href con h net ts]. simpl in *.
  exec. rewrite Hu. by rewrite settle_fresh.
Qed.

(** Lines 10-12: a call made while a fetch is pending follows it. *)
Lemma getCurrentUser_joins s p :
  ToBoolean (currentUser s) = false →
  fetchPromise s = Some p →
  promises s !! p = Some Pending →
  getCurrentUser s =
    (length (promises s),
     {| currentUser := currentUser s; fetchPromise := fetchPromise s;
        localStorage := localStorage s; location_href := location_href s;
        console := console s;
        promises := promises s ++ [Following p];
        network := network s; tasks := tasks s |}).
Proof.
  intros Hu Hp Hh. destruct s as [u fp ls href con h net ts]. simpl in *.
  exec. rewrite Hu, Hp. rewrite lookup_app_l by by eapply lookup_lt_Some.
  rewrite Hh. by rewrite insert_fresh_app.
Qed.

(** Lines 14-17: nothing cached, nothing pending and no usable token. *)
Lemma getCurrentUser_no_token s :
  heap_closed (promises s) →
  ToBoolean (currentUser s) = false →
  fetchPromise s = None →
  ToBoolean (item_value (localStorage s !! "access_token")) = false →
  getCurrentUser s =
    (length (promises s),
     {| currentUser := currentUser s; fetchPromise := fetchPromise s;
        localStorage := localStorage s; location_href := location_href s;
        console := console s;
        promises := promises s ++ [Fulfilled JNull];
        network := network s; tasks := tasks s |}).
Proof.
  intros Hc Hu Hp Ht. destruct s as [u fp ls href con h net ts]. simpl in *.
  exec. rewrite Hu, Hp, Ht. simpl. by rewrite settle_fresh.
Qed.

(** Lines 19-42: one network call is made and its promise becomes the
    marker. *)
Lemma getCurrentUser_fetches s :
  ToBoolean (currentUser s) = false →
  fetchPromise s = None →
  ToBoolean (item_value (localStorage s !! "access_token")) = true →
  getCurrentUser s =
    (length (promises s),
     {| currentUser := currentUser s;
        fetchPromise := Some (S (length (promises s)));
        localStorage := localStorage s; location_href := location_href s;
        console := console s;
        promises := promises s ++ [Following (S (length (promises s))); Pending];
        network := network s ++
          [mkRequest "/api/users/me"
             [("Authorization", bearer (localStorage s !! "access_token"))]];
        tasks := tasks s ++
          [mkTask (S (length (promises s))) (length (network s)) AwaitFetch] |}).
Proof.
  intros Hu Hp Ht. destruct s as [u fp ls href con h net ts]. simpl in *.
  exec. rewrite Hu, Hp, Ht. simpl.
  rewrite length_app, Nat.add_1_r. simpl.
  replace ((h ++ [Pending]) ++ [Pending]) with (h ++ [Pending; Pending])
    by by rewrite <- app_assoc.
  rewrite lookup_app_r by lia.
  replace (S (length h) - length h) with 1 by lia. simpl.
  by rewrite insert_fresh_app.
Qed.

(** ** The resumptions of the arrow function *)

Lemma find_only_task rid a (t : Task) :
  list_find (waits_on rid a) [t] =
    if decide (waits_on rid a t) then Some (0, t) else None.
Proof. simpl. by case_decide. Qed.

(** Line 27 holds: the body goes on to [response.json()] and parks again. *)
Lemma step_fetch_ok s p rid :
  tasks s = [mkTask p rid AwaitFetch] →
  step (FetchSettles rid (Resolve (mkResponse true))) s =
    Some {| currentUser := currentUser s; fetchPromise := fetchPromise s;
            localStorage := localStorage s; location_href := location_href s;
            console := console s; promises := promises s;
            network := network s; tasks := [mkTask p rid AwaitJson] |}.
Proof.
  intros Ht. destruct s as [u fp ls href con h net ts]. simpl in *. subst ts.
  unfold step, take_task. simpl tasks. rewrite find_only_task.
  rewrite decide_True by done. exec. reflexivity.
Qed.

(** Lines 32-33, then [finally]. *)
Lemma step_fetch_not_ok s p rid :
  tasks s = [mkTask p rid AwaitFetch] →
  step (FetchSettles rid (Resolve (mkResponse false))) s =
    Some {| currentUser := currentUser s; fetchPromise := None;
            localStorage := delete "access_token" (localStorage s);
            location_href := location_href s; console := console s;
            promises := settled_heap p (Fulfilled JNull) (promises s);
            network := network s; tasks := [] |}.
Proof.
  intros Ht. destruct s as [u fp ls href con h net ts]. simpl in *. subst ts.
  unfold step, take_task. simpl tasks. rewrite find_only_task.
  rewrite decide_True by done. exec. reflexivity.
Qed.

(** The [await] of line 21 throws: [catch], then [finally]. *)
Lemma step_fetch_rejected s p rid e :
  tasks s = [mkTask p rid AwaitFetch] →
  step (FetchSettles rid (Reject e)) s =
    Some {| currentUser := currentUser s; fetchPromise := None;
            localStorage := localStorage s; location_href := location_href s;
            console := console s ++ [("Error fetching current user:", e)];
            promises := settled_heap p (Fulfilled JNull) (promises s);
            network := network s; tasks := [] |}.
Proof.
  intros Ht. destruct s as [u fp ls href con h net ts]. simpl in *. subst ts.
  unfold step, take_task. simpl tasks. rewrite find_only_task.
  rewrite decide_True by done. exec. reflexivity.
Qed.

(** Lines 28-29, then [finally]. *)
Lemma step_json_ok s p rid body :
  tasks s = [mkTask p rid AwaitJson] →
  step (JsonSettles rid (Resolve body)) s =
    Some {| currentUser := body; fetchPromise := None;
            localStorage := localStorage s; location_href := location_href s;
            console := console s;
            promises := settled_heap p (Fulfilled body) (promises s);
            network := network s; tasks := [] |}.
Proof.
  intros Ht. destruct s as [u fp ls href con h net ts]. simpl in *. subst ts.
  unfold step, take_task. simpl tasks. rewrite find_only_task.
  rewrite decide_True by done. exec. reflexivity.
Qed.

(** The [await] of line 28 throws: [catch], then [finally]. *)
Lemma step_json_rejected s p rid e :
  tasks s = [mkTask p rid AwaitJson] →
  step (JsonSettles rid (Reject e)) s =
    Some {| currentUser := currentUser s; fetchPromise := None;
            localStorage := localStorage s; location_href := location_href s;
            console := console s ++ [("Error fetching current user:", e)];
            promises := settled_heap p (Fulfilled JNull) (promises s);
            network := network s; tasks := [] |}.
Proof.
  intros Ht. destruct s as [u fp ls href con h net ts]. simpl in *. subst ts.
  unfold step, take_task. simpl tasks. rewrite find_only_task.
  rewrite decide_True by done. exec. reflexivity.
Qed.

(** A settlement is delivered only to an arrow function that waits for it. *)
Lemma take_only_task s rid a t s' :
  length (tasks s) ≤ 1 →
  take_task rid a s = Some (t, s') →
  tasks s = [mkTask (task_promise t) rid a].
Proof.
  unfold take_task. destruct (tasks s) as [|t0 [|t1 ts]] eqn:E.
  - discriminate.
  - intros _. rewrite find_only_task. case_decide as Hw; [|discriminate].
    intros [= <- _]. destruct Hw as [<- <-]. by destruct t0.
  - simpl. lia.
Qed.

(** ** The invariant of the reachable states *)

Lemma in_flight_marker s p :
  in_flight s → fetchPromise s = Some p →
  ∃ rid a, tasks s = [mkTask p rid a] ∧ promises s !! p = Some Pending ∧
           ToBoolean (currentUser s) = false ∧ rid < length (network s).
Proof.
  unfold in_flight. destruct (tasks s) as [|[p' rid a] [|]]; simpl.
  - congruence.
  - intros (Hm & Hp & Hu & Hr) Hm'. exists rid, a.
    assert (p' = p) as -> by congruence. done.
  - done.
Qed.

Lemma in_flight_idle s :
  in_flight s → fetchPromise s = None → tasks s = [].
Proof.
  unfold in_flight. destruct (tasks s) as [|t [|]]; [done| |done].
  intros (Hm & _). congruence.
Qed.

Lemma in_flight_at_most_one s : in_flight s → length (tasks s) ≤ 1.
Proof.
  unfold in_flight. destruct (tasks s) as [|t [|]]; simpl; [lia|lia|done].
Qed.

Lemma Inv_heap_closed s : Inv s → heap_closed (promises s).
Proof.
  intros [Hf _ Hfo _] i r Hi. apply Hfo in Hi.
  destruct (in_flight_marker _ _ Hf Hi) as (rid & a & _ & Hp & _).
  by eapply lookup_lt_Some.
Qed.

Lemma Inv_initial storage href : Inv (initial storage href).
Proof. split; [done|..]; intros i; simpl; by rewrite lookup_nil. Qed.

(** The invariant reads the cached user only through its truthiness and
    the network log only through its length. *)
Lemma Inv_frame s s' :
  Inv s →
  map task_promise (tasks s') = map task_promise (tasks s) →
  map task_request (tasks s') = map task_request (tasks s) →
  fetchPromise s' = fetchPromise s →
  promises s' = promises s →
  length (network s) ≤ length (network s') →
  (ToBoolean (currentUser s) = false → ToBoolean (currentUser s') = false) →
  Inv s'.
Proof.
  intros [Hf Hpe Hfo Hr] Htp Htr Hm Hh Hn Hu. split.
  - unfold in_flight in *. rewrite Hm, Hh.
    destruct (tasks s) as [|t [|]], (tasks s') as [|t' [|]];
      simpl in *; try done.
    destruct Hf as (? & ? & ? & ?).
    injection Htp as ->. injection Htr as ->. repeat split; auto. lia.
  - intros i. rewrite Hm, Hh. apply Hpe.
  - intros i r. rewrite Hm, Hh. apply Hfo.
  - intros i e. rewrite Hh. apply Hr.
Qed.

(** A new promise, settled at once or following the pending fetch. *)
Lemma Inv_alloc s s' st :
  Inv s →
  st ≠ Pending →
  (∀ e, st ≠ Rejected e) →
  (∀ r, st = Following r → fetchPromise s = Some r) →
  tasks s' = tasks s → fetchPromise s' = fetchPromise s →
  promises s' = promises s ++ [st] →
  network s' = network s → currentUser s' = currentUser s →
  Inv s'.
Proof.
  intros [Hf Hpe Hfo Hr] Hst0 Hst1 Hst2 Ht Hm Hh Hn Hu. split.
  - unfold in_flight in *. rewrite Ht, Hm, Hh, Hn, Hu.
    destruct (tasks s) as [|t [|]]; try done.
    destruct Hf as (? & Hp & ? & ?). repeat split; auto.
    rewrite lookup_app_l; [done|]. by eapply lookup_lt_Some.
  - intros i. rewrite Hm, Hh. intros Hi.
    apply lookup_app_Some in Hi as [Hi|[_ Hi]]; [by eapply Hpe|].
    destruct (i - length (promises s)) as [|[|]]; by simplify_eq/=.
  - intros i r. rewrite Hm, Hh. intros Hi.
    apply lookup_app_Some in Hi as [Hi|[_ Hi]]; [by eapply Hfo|].
    destruct (i - length (promises s)) as [|[|]]; simplify_eq/=. by apply Hst2.
  - intros i e. rewrite Hh. intros Hi.
    apply lookup_app_Some in Hi as [Hi|[_ Hi]]; [by eapply Hr|].
    destruct (i - length (promises s)) as [|[|]]; simplify_eq/=. by eapply Hst1.
Qed.

(** The pending fetch completes with a value. *)
Lemma Inv_settle s s' p rid a v :
  Inv s →
  tasks s = [mkTask p rid a] →
  tasks s' = [] → fetchPromise s' = None →
  promises s' = settled_heap p (Fulfilled v) (promises s) →
  Inv s'.
Proof.
  intros [Hf Hpe Hfo Hr] Ht Ht' Hm' Hh'. unfold in_flight in Hf.
  rewrite Ht in Hf. simpl in Hf. destruct Hf as (Hm & Hp & _ & _).
  assert (∀ i st, promises s' !! i = Some st →
            st = Fulfilled v ∨
            (promises s !! i = Some st ∧ st ≠ Pending ∧ ∀ r, st ≠ Following r))
    as Hcases.
  { intros i st. rewrite Hh', settled_heap_lookup.
    destruct (decide (i = p)) as [->|Hne].
    - rewrite list_lookup_insert_eq by by eapply lookup_lt_Some.
      simpl. intros [= <-]. by left.
    - rewrite list_lookup_insert_ne by done.
      destruct (promises s !! i) as [st0|] eqn:E; [|done]. simpl.
      intros [= <-]. destruct st0 as [|v0|e0|r]; simpl; try (right; done).
      + apply Hpe in E. congruence.
      + apply Hfo in E. assert (r = p) as -> by congruence.
        rewrite decide_True by done. by left. }
  split.
  - unfold in_flight. by rewrite Ht'.
  - intros i Hi. apply Hcases in Hi as [?|(_ & Hi & _)]; done.
  - intros i r Hi. apply Hcases in Hi as [?|(_ & _ & Hi)]; [done|].
    by destruct (Hi r).
  - intros i e Hi. apply Hcases in Hi as [?|(Hi & _)]; [done|]. by eapply Hr.
Qed.

Lemma Inv_getCurrentUser s : Inv s → Inv (getCurrentUser s).2.
Proof.
  intros HI. pose proof (Inv_heap_closed _ HI) as Hc.
  destruct (ToBoolean (currentUser s)) eqn:Hu.
  { rewrite getCurrentUser_cached by done.
    by eapply (Inv_alloc s _ (Fulfilled (currentUser s))). }
  destruct (fetchPromise s) as [p|] eqn:Hm.
  { destruct (in_flight_marker _ _ (inv_flight _ HI) Hm) as (rid & a & _ & Hp & _).
    rewrite (getCurrentUser_joins s p) by done.
    eapply (Inv_alloc s _ (Following p)); try done. congruence. }
  destruct (ToBoolean (item_value (localStorage s !! "access_token"))) eqn:Ht.
  2:{ rewrite getCurrentUser_no_token by done.
      by eapply (Inv_alloc s _ (Fulfilled JNull)). }
  rewrite getCurrentUser_fetches by done.
  pose proof (in_flight_idle _ (inv_flight _ HI) Hm) as Hts.
  destruct HI as [Hf Hpe Hfo Hr]. split; simpl.
  - unfold in_flight. simpl. rewrite Hts. simpl. repeat split; auto.
    + rewrite lookup_app_r by lia.
      by replace (S (length (promises s)) - length (promises s)) with 1 by lia.
    + rewrite length_app. simpl. lia.
  - intros i Hi. apply lookup_app_Some in Hi as [Hi|[Hge Hi]].
    + apply Hpe in Hi. congruence.
    + destruct (i - length (promises s)) as [|[|[|]]] eqn:E; simplify_eq/=.
      f_equal. lia.
  - intros i r Hi. apply lookup_app_Some in Hi as [Hi|[_ Hi]].
    + apply Hfo in Hi. congruence.
    + destruct (i - length (promises s)) as [|[|[|]]]; by simplify_eq/=.
  - intros i e Hi. apply lookup_app_Some in Hi as [Hi|[_ Hi]].
    + by eapply Hr.
    + destruct (i - length (promises s)) as [|[|[|]]]; by simplify_eq/=.
Qed.

Lemma step_fetch_enabled s rid o s' :
  length (tasks s) ≤ 1 →
  step (FetchSettles rid o) s = Some s' →
  ∃ p, tasks s = [mkTask p rid AwaitFetch].
Proof.
  intros Hone. simpl.
  destruct (take_task rid AwaitFetch s) as [[t s1]|] eqn:E; [|done].
  apply take_only_task in E; eauto.
Qed.

Lemma step_json_enabled s rid o s' :
  length (tasks s) ≤ 1 →
  step (JsonSettles rid o) s = Some s' →
  ∃ p, tasks s = [mkTask p rid AwaitJson].
Proof.
  intros Hone. simpl.
  destruct (take_task rid AwaitJson s) as [[t s1]|] eqn:E; [|done].
  apply take_only_task in E; eauto.
Qed.

(** Every step keeps the invariant. *)
Lemma Inv_step s e s' : Inv s → step e s = Some s' → Inv s'.
Proof.
  intros HI Hs.
  pose proof (in_flight_at_most_one _ (inv_flight _ HI)) as Hone.
  destruct e as [| | |token| |rid o|rid o|key [value|]].
  - injection Hs as <-. by apply Inv_getCurrentUser.
  - injection Hs as <-. by eapply Inv_frame.
  - injection Hs as <-. by eapply Inv_frame.
  - injection Hs as <-. by eapply Inv_frame.
  - injection Hs as <-. by eapply Inv_frame.
  - destruct (step_fetch_enabled _ _ _ _ Hone Hs) as [p E].
    destruct o as [[[]]|e].
    + rewrite (step_fetch_ok s p rid) in Hs by done.
      injection Hs as <-. eapply Inv_frame; first done; simpl; try done.
      all: by rewrite E.
    + rewrite (step_fetch_not_ok s p rid) in Hs by done.
      injection Hs as <-. by eapply Inv_settle.
    + rewrite (step_fetch_rejected s p rid) in Hs by done.
      injection Hs as <-. by eapply Inv_settle.
  - destruct (step_json_enabled _ _ _ _ Hone Hs) as [p E].
    destruct o as [body|e].
    + rewrite (step_json_ok s p rid) in Hs by done.
      injection Hs as <-. by eapply Inv_settle.
    + rewrite (step_json_rejected s p rid) in Hs by done.
      injection Hs as <-. by eapply Inv_settle.
  - injection Hs as <-. by eapply Inv_frame.
  - injection Hs as <-. by eapply Inv_frame.
Qed.

Lemma reachable_Inv s : reachable s → Inv s.
Proof.
  induction 1 as [storage href|s e s' _ IH Hs].
  - apply Inv_initial.
  - by eapply Inv_step.
Qed.

Lemma reachable_run es : ∀ s s', reachable s → run es s = Some s' → reachable s'.
Proof.
  induction es as [|e es IH]; intros s s' Hr; simpl.
  - by intros [= <-].
  - destruct (step e s) as [s1|] eqn:E; [|done].
    apply IH. by eapply reachable_step.
Qed.

Lemma reachable_call s : reachable s → reachable (getCurrentUser s).2.
Proof. intros Hr. by eapply (reachable_step s CallGetCurrentUser). Qed.

(** In a reachable state a suspended arrow function is the only one, and
    the marker is its promise. *)
Lemma only_task s t :
  reachable s → t ∈ tasks s →
  tasks s = [t] ∧ fetchPromise s = Some (task_promise t) ∧
  promises s !! task_promise t = Some Pending ∧
  ToBoolean (currentUser s) = false.
Proof.
  intros Hr%reachable_Inv Ht. destruct Hr as [Hf _ _ _]. unfold in_flight in Hf.
  destruct (tasks s) as [|t0 [|]]; [by apply elem_of_nil in Ht| |done].
  apply list_elem_of_singleton in Ht as ->.
  destruct Hf as (? & ? & ? & _). done.
Qed.

(** While the fetch stays pending its followers keep following it; once it
    settles they hold its value. *)
Lemma follower_step s e s' q p :
  reachable s → step e s = Some s' →
  promises s !! q = Some (Following p) →
  (promises s' !! q = Some (Following p) ∧ promises s' !! p = Some Pending) ∨
  (∃ v, promises s' !! q = Some (Fulfilled v) ∧
        promises s' !! p = Some (Fulfilled v)).
Proof.
  intros Hr Hs Hq. pose proof (reachable_Inv _ Hr) as HI.
  pose proof (inv_follow _ HI _ _ Hq) as Hm.
  destruct (in_flight_marker _ _ (inv_flight _ HI) Hm)
    as (rid & a & Ht & Hp & Hu & _).
  assert (length (tasks s) ≤ 1) as Hone by (rewrite Ht; simpl; lia).
  assert (∀ v, settled_heap p (Fulfilled v) (promises s) !! q = Some (Fulfilled v) ∧
               settled_heap p (Fulfilled v) (promises s) !! p = Some (Fulfilled v))
    as Hdone.
  { intros v. split.
    - rewrite settled_heap_other by congruence. rewrite Hq. simpl.
      by rewrite decide_True.
    - apply settled_heap_self; [by eapply lookup_lt_Some|done]. }
  destruct e as [| | |token| |rid' o|rid' o|key [value|]];
    [| | | | | | |by injection Hs as <-; left..].
  - injection Hs as <-. rewrite (getCurrentUser_joins s p) by done. simpl.
    left. split; rewrite lookup_app_l; try done; by eapply lookup_lt_Some.
  - injection Hs as <-. by left.
  - injection Hs as <-. by left.
  - injection Hs as <-. by left.
  - injection Hs as <-. by left.
  - destruct (step_fetch_enabled _ _ _ _ Hone Hs) as [p' E].
    rewrite Ht in E. injection E as <- <- ->.
    destruct o as [[[]]|e].
    + rewrite (step_fetch_ok s p rid) in Hs by done. injection Hs as <-.
      by left.
    + rewrite (step_fetch_not_ok s p rid) in Hs by done. injection Hs as <-.
      right. exists JNull. apply Hdone.
    + rewrite (step_fetch_rejected s p rid) in Hs by done. injection Hs as <-.
      right. exists JNull. apply Hdone.
  - destruct (step_json_enabled _ _ _ _ Hone Hs) as [p' E].
    rewrite Ht in E. injection E as <- <- ->.
    destruct o as [body|e].
    + rewrite (step_json_ok s p rid) in Hs by done. injection Hs as <-.
      right. exists body. apply Hdone.
    + rewrite (step_json_rejected s p rid) in Hs by done. injection Hs as <-.
      right. exists JNull. apply Hdone.
Qed.

(** ** Request coalescing *)

Lemma idle_call s :
  reachable s → idle s →
  network (getCurrentUser s).2 = network s ∧ idle (getCurrentUser s).2.
Proof.
  intros Hr Hidle. pose proof (reachable_Inv _ Hr) as HI.
  pose proof (Inv_heap_closed _ HI) as Hc. unfold idle in *.
  destruct (ToBoolean (currentUser s)) eqn:Hu.
  { rewrite getCurrentUser_cached by done. simpl. auto. }
  destruct (fetchPromise s) as [p|] eqn:Hm.
  { destruct (in_flight_marker _ _ (inv_flight _ HI) Hm)
      as (rid & a & _ & Hp & _).
    rewrite (getCurrentUser_joins s p) by done. simpl. rewrite Hm. eauto. }
  destruct Hidle as [?|[[? ?]|Htok]]; try done.
  rewrite getCurrentUser_no_token by done. simpl. auto.
Qed.

Lemma idle_calls n :
  ∀ s s', reachable s → idle s →
          run (replicate n CallGetCurrentUser) s = Some s' →
          network s' = network s.
Proof.
  induction n as [|n IH]; intros s s' Hr Hidle; simpl.
  - by intros [= <-].
  - intros Hrun. destruct (idle_call s Hr Hidle) as [Hn Hidle'].
    rewrite (IH _ _ (reachable_call _ Hr) Hidle' Hrun). exact Hn.
Qed.

(** However many calls are made in a row, at most one of them fetches. *)
Lemma calls_in_a_row n s s' :
  reachable s →
  run (replicate n CallGetCurrentUser) s = Some s' →
  network s' = network s ∨ ∃ request, network s' = network s ++ [request].
Proof.
  intros Hr. destruct n as [|n]; simpl; [intros [= <-]; by left|].
  intros Hrun.
  destruct (ToBoolean (currentUser s)) eqn:Hu.
  { left. apply (idle_calls (S n) s s' Hr); [by left|done]. }
  destruct (fetchPromise s) as [p|] eqn:Hm.
  { left. apply (idle_calls (S n) s s' Hr); [right; left; by rewrite Hm|done]. }
  destruct (ToBoolean (item_value (localStorage s !! "access_token"))) eqn:Htok.
  2:{ left. apply (idle_calls (S n) s s' Hr); [by right; right|done]. }
  right. eexists.
  rewrite (idle_calls n _ s' (reachable_call _ Hr)); [| |done].
  - by rewrite getCurrentUser_fetches.
  - rewrite getCurrentUser_fetches by done. right. left. simpl. eauto.
Qed.

(** C1.  In every state the module can reach, at most one arrow function is
    suspended, that is at most one identity fetch is pending, and any
    number of calls made in a row make at most one network call.  A call
    made while the marker holds the pending promise [p] makes no network
    call and returns a promise that follows [p]; from then on that promise
    either still follows the pending [p] or holds the very value [p] was
    fulfilled with.  When a first call finds no fetch pending and a second
    call is made before the first one's promise has an outcome, the two
    calls together make exactly one network call and both promises follow
    the same fetch. *)
Theorem single_flight (s : State) :
  reachable s →
  length (tasks s) ≤ 1 ∧
  (∀ n s', run (replicate n CallGetCurrentUser) s = Some s' →
     network s' = network s ∨ ∃ request, network s' = network s ++ [request]) ∧
  (∀ p, fetchPromise s = Some p →
     (∃ rid a, tasks s = [mkTask p rid a]) ∧
     promises s !! p = Some Pending ∧
     ∀ q s1, getCurrentUser s = (q, s1) →
       promises s1 !! q = Some (Following p) ∧
       network s1 = network s ∧ tasks s1 = tasks s ∧
       fetchPromise s1 = Some p) ∧
  (∀ q p e s', promises s !! q = Some (Following p) → step e s = Some s' →
     (promises s' !! q = Some (Following p) ∧ promises s' !! p = Some Pending) ∨
     (∃ v, promises s' !! q = Some (Fulfilled v) ∧
           promises s' !! p = Some (Fulfilled v))) ∧
  (∀ q1 s1 q2 s2,
     fetchPromise s = None →
     getCurrentUser s = (q1, s1) →
     is_settled (promises s1 !! q1) = false →
     getCurrentUser s1 = (q2, s2) →
     length (network s2) = S (length (network s)) ∧
     length (tasks s2) = 1 ∧
     ∃ p, fetchPromise s2 = Some p ∧
          promises s2 !! p = Some Pending ∧
          promises s2 !! q1 = Some (Following p) ∧
          promises s2 !! q2 = Some (Following p)).
Proof.
  intros Hr. pose proof (reachable_Inv _ Hr) as HI.
  pose proof (Inv_heap_closed _ HI) as Hc.
  split; [by apply in_flight_at_most_one, HI|]. split; [|split; [|split]].
  - intros n s'. by apply calls_in_a_row.
  - intros p Hm.
    destruct (in_flight_marker _ _ (inv_flight _ HI) Hm)
      as (rid & a & Ht & Hp & Hu & _).
    split; [eauto|]. split; [done|]. intros q s1.
    rewrite (getCurrentUser_joins s p) by done. intros [= <- <-]. simpl.
    by rewrite lookup_app_r, Nat.sub_diag by lia.
  - intros q p e s' Hq Hs. by eapply follower_step.
  - intros q1 s1 q2 s2 Hm H1 Hpend H2.
    pose proof (in_flight_idle _ (inv_flight _ HI) Hm) as Ht.
    destruct (ToBoolean (currentUser s)) eqn:Hu.
    { rewrite getCurrentUser_cached in H1 by done. injection H1 as <- <-.
      simpl in Hpend. by rewrite lookup_app_r, Nat.sub_diag in Hpend by lia. }
    destruct (ToBoolean (item_value (localStorage s !! "access_token"))) eqn:Htok.
    2:{ rewrite getCurrentUser_no_token in H1 by done. injection H1 as <- <-.
        simpl in Hpend. by rewrite lookup_app_r, Nat.sub_diag in Hpend by lia. }
    rewrite getCurrentUser_fetches in H1 by done. injection H1 as <- <-.
    rewrite (getCurrentUser_joins _ (S (length (promises s)))) in H2; simpl; try done.
    2:{ rewrite lookup_app_r by lia.
        by replace (S (length (promises s)) - length (promises s)) with 1 by lia. }
    injection H2 as <- <-. simpl. rewrite Ht. simpl.
    rewrite !length_app. simpl. split; [lia|]. split; [done|].
    exists (S (length (promises s))). split; [done|].
    rewrite <- !app_assoc. simpl.
    split; [|split].
    + rewrite lookup_app_r by lia.
      by replace (S (length (promises s)) - length (promises s)) with 1 by lia.
    + by rewrite lookup_app_r, Nat.sub_diag by lia.
    + rewrite lookup_app_r by lia.
      by replace (length (promises s) + 2 - length (promises s)) with 2 by lia.
Qed.

Lemma single_flight_witness :
  let s := (getCurrentUser signed_in).2 in
  reachable s ∧ length (tasks s) ≤ 1 ∧
  ∀ q s1, getCurrentUser s = (q, s1) →
    promises s1 !! q = Some (Following 1) ∧ network s1 = network s.
Proof.
  intros s.
  assert (reachable s) as Hr by apply reachable_call, reachable_initial.
  split; [exact Hr|].
  destruct (single_flight s Hr) as (Hone & _ & Hjoin & _).
  split; [exact Hone|]. intros q s1 Hq.
  destruct (Hjoin 1 eq_refl) as (_ & _ & H).
  destruct (H q s1 Hq) as (Hf & Hn & _). split; assumption.
Defined.

(** ** The outcomes of the fetch *)

(** A promise without an outcome is the promise of the pending fetch or
    follows it, so it holds [v] once the fetch is fulfilled with [v]. *)
Lemma settle_results s p v q :
  reachable s → fetchPromise s = Some p →
  q < length (promises s) → is_settled (promises s !! q) = false →
  settled_heap p (Fulfilled v) (promises s) !! q = Some (Fulfilled v).
Proof.
  intros Hr%reachable_Inv Hm Hq Hun.
  destruct (in_flight_marker _ _ (inv_flight _ Hr) Hm) as (rid & a & _ & Hp & _).
  destruct (lookup_lt_is_Some_2 _ _ Hq) as [st Hst]. rewrite Hst in Hun.
  destruct st as [|v0|e0|r]; try done.
  - apply (inv_pending _ Hr) in Hst. assert (q = p) as -> by congruence.
    apply settled_heap_self; [done|done].
  - pose proof (inv_follow _ Hr _ _ Hst). assert (r = p) as -> by congruence.
    rewrite settled_heap_other by congruence. rewrite Hst. simpl.
    by rewrite decide_True.
Qed.

(** The promises that have an outcome keep it. *)
Lemma settle_keeps s p v q :
  reachable s → fetchPromise s = Some p →
  is_settled (promises s !! q) = true →
  settled_heap p (Fulfilled v) (promises s) !! q = promises s !! q.
Proof.
  intros Hr%reachable_Inv Hm Hq.
  destruct (in_flight_marker _ _ (inv_flight _ Hr) Hm) as (rid & a & _ & Hp & _).
  destruct (promises s !! q) as [st|] eqn:Hst; [|done].
  assert (q ≠ p) as Hne by (intros ->; by simplify_eq).
  rewrite settled_heap_other by done. rewrite Hst.
  by destruct st.
Qed.

(** C2.  When the arrow function with promise [p] waits for the response to
    its network call and a non-OK response arrives, the step removes key
    [access_token] from localStorage (and nothing else), fulfils with [null]
    every promise that has no outcome yet (the promise of the fetch and the
    promises [getCurrentUser] returned for it), changes no promise that has
    one, and leaves the cached user as it was, which is no user. *)
Theorem not_ok_discards_token (s : State) (p rid : nat) (response : Response) :
  reachable s →
  mkTask p rid AwaitFetch ∈ tasks s →
  ok response = false →
  ∃ s', step (FetchSettles rid (Resolve response)) s = Some s' ∧
        localStorage s' = delete "access_token" (localStorage s) ∧
        localStorage s' !! "access_token" = None ∧
        (∀ q, q < length (promises s) →
              is_settled (promises s !! q) = false →
              promises s' !! q = Some (Fulfilled JNull)) ∧
        (∀ q, is_settled (promises s !! q) = true →
              promises s' !! q = promises s !! q) ∧
        currentUser s' = currentUser s ∧
        ToBoolean (currentUser s') = false.
Proof.
  intros Hr Ht Hok. destruct (only_task _ _ Hr Ht) as (Hts & Hm & Hp & Hu).
  destruct response as [[]]; [done|]. eexists. split.
  { by apply step_fetch_not_ok. }
  simpl. split; [done|]. split; [apply lookup_delete_eq|].
  split; [|split; [|done]].
  - intros q Hq Hun. by apply settle_results.
  - intros q Hq. by apply settle_keeps.
Qed.

Lemma not_ok_discards_token_witness :
  let s := (getCurrentUser signed_in).2 in
  reachable s ∧ mkTask 1 0 AwaitFetch ∈ tasks s ∧
  ∃ s', step (FetchSettles 0 (Resolve (mkResponse false))) s = Some s' ∧
        localStorage s' !! "access_token" = None ∧
        promises s' !! 0 = Some (Fulfilled JNull).
Proof.
  intros s.
  assert (reachable s) as Hr by apply reachable_call, reachable_initial.
  assert (mkTask 1 0 AwaitFetch ∈ tasks s) as Ht by (left).
  split; [exact Hr|]. split; [exact Ht|].
  destruct (not_ok_discards_token s 1 0 (mkResponse false) Hr Ht eq_refl)
    as (s' & Hs & _ & Hd & Hq & _).
  exists s'. split; [exact Hs|]. split; [exact Hd|].
  apply Hq; [vm_compute; lia|reflexivity].
Defined.

(** C3.  When the awaited promise of [fetch] or of [response.json()] is
    rejected with [e], the step appends the fault to the console, fulfils
    with [null] every promise that has no outcome yet (the promise of the
    fetch and the promises [getCurrentUser] returned for it), and leaves
    localStorage and the cached user untouched.  No promise of the module
    is rejected in any reachable state, so no caller ever receives the
    exception. *)
Theorem fault_is_logged_and_swallowed (s : State) :
  reachable s →
  (∀ p rid a e, mkTask p rid a ∈ tasks s →
     ∃ s',
       step (match a with
             | AwaitFetch => FetchSettles rid (Reject e)
             | AwaitJson => JsonSettles rid (Reject e)
             end) s = Some s' ∧
       console s' = console s ++ [("Error fetching current user:", e)] ∧
       localStorage s' = localStorage s ∧
       currentUser s' = currentUser s ∧
       (∀ q, q < length (promises s) →
             is_settled (promises s !! q) = false →
             promises s' !! q = Some (Fulfilled JNull))) ∧
  (∀ q e, promises s !! q ≠ Some (Rejected e)).
Proof.
  intros Hr. split; [|apply reachable_Inv, Hr].
  intros p rid a e Ht. destruct (only_task _ _ Hr Ht) as (Hts & Hm & Hp & Hu).
  eexists. split.
  { destruct a; [by apply step_fetch_rejected|by apply step_json_rejected]. }
  simpl. repeat split; try done. intros q Hq Hun. by apply settle_results.
Qed.

Lemma fault_is_logged_and_swallowed_witness :
  let s := (getCurrentUser signed_in).2 in
  let e := mkError "TypeError" "Failed to fetch" in
  reachable s ∧
  ∃ s', step (FetchSettles 0 (Reject e)) s = Some s' ∧
        console s' = [("Error fetching current user:", e)] ∧
        localStorage s' = localStorage s ∧
        promises s' !! 0 = Some (Fulfilled JNull).
Proof.
  intros s e.
  assert (reachable s) as Hr by apply reachable_call, reachable_initial.
  split; [exact Hr|].
  destruct (fault_is_logged_and_swallowed s Hr) as [H _].
  destruct (H 1 0 AwaitFetch e) as (s' & Hs & Hc & Hl & _ & Hq); [left|].
  exists s'. split; [exact Hs|]. split; [exact Hc|]. split; [exact Hl|].
  apply Hq; [vm_compute; lia|reflexivity].
Defined.

(** ** Fetching and caching *)

Lemma usable_token s tok :
  localStorage s !! "access_token" = Some tok → tok ≠ "" →
  ToBoolean (item_value (localStorage s !! "access_token")) = true.
Proof. intros -> Hne. by destruct tok. Qed.

(** A call that finds nothing cached, nothing pending and a non-empty token
    starts the only pending fetch. *)
Lemma fresh_fetch s tok :
  reachable s →
  ToBoolean (currentUser s) = false →
  fetchPromise s = None →
  localStorage s !! "access_token" = Some tok → tok ≠ "" →
  getCurrentUser s =
    (length (promises s),
     {| currentUser := currentUser s;
        fetchPromise := Some (S (length (promises s)));
        localStorage := localStorage s; location_href := location_href s;
        console := console s;
        promises := promises s ++ [Following (S (length (promises s))); Pending];
        network := network s ++
          [mkRequest "/api/users/me" [("Authorization", "Bearer " +:+ tok)]];
        tasks := [mkTask (S (length (promises s))) (length (network s)) AwaitFetch] |}).
Proof.
  intros Hr Hu Hm Htok Hne.
  rewrite getCurrentUser_fetches by eauto using usable_token.
  rewrite (in_flight_idle s) by (by apply reachable_Inv || done).
  by rewrite Htok.
Qed.

Lemma lookup_fresh_pair (h : list PromiseState) (a b : PromiseState) :
  (h ++ [a; b]) !! length h = Some a ∧ (h ++ [a; b]) !! S (length h) = Some b.
Proof.
  split.
  - by rewrite lookup_app_r, Nat.sub_diag by lia.
  - rewrite lookup_app_r by lia.
    by replace (S (length h) - length h) with 1 by lia.
Qed.

(** The fetch started by [fresh_fetch] runs to its end with the body
    [body]: the two resumptions of the arrow function. *)
Lemma fetch_completes s tok body :
  reachable s →
  ToBoolean (currentUser s) = false →
  fetchPromise s = None →
  localStorage s !! "access_token" = Some tok → tok ≠ "" →
  run [FetchSettles (length (network s)) (Resolve (mkResponse true));
       JsonSettles (length (network s)) (Resolve body)]
      (getCurrentUser s).2 =
    Some {| currentUser := body; fetchPromise := None;
            localStorage := localStorage s; location_href := location_href s;
            console := console s;
            promises := promises s ++ [Fulfilled body; Fulfilled body];
            network := network s ++
              [mkRequest "/api/users/me" [("Authorization", "Bearer " +:+ tok)]];
            tasks := [] |}.
Proof.
  intros Hr Hu Hm Htok Hne. rewrite (fresh_fetch s tok) by done.
  cbn [run snd].
  erewrite step_fetch_ok by reflexivity. cbn [run].
  erewrite step_json_ok by reflexivity. cbn -[settled_heap].
  do 2 f_equal. apply list_eq. intros i.
  rewrite settled_heap_lookup.
  destruct (decide (i < length (promises s))) as [Hlt|Hge].
  - rewrite list_lookup_insert_ne by lia. rewrite !lookup_app_l by done.
    destruct (promises s !! i) as [st|] eqn:E; [|done]. simpl. f_equal.
    destruct st as [| | |r]; try done.
    apply (Inv_heap_closed _ (reachable_Inv _ Hr)) in E.
    simpl. rewrite decide_False by lia. done.
  - rewrite insert_app_r_alt by lia.
    rewrite !lookup_app_r by lia.
    replace (S (length (promises s)) - length (promises s)) with 1 by lia.
    destruct (i - length (promises s)) as [|[|[|]]] eqn:E; simpl; try done.
    by rewrite decide_True.
Qed.

(** C4.  Take a state with nothing cached and nothing pending (as the first
    call finds it) and a non-empty token stored.  The call makes one network
    call carrying the token as bearer credential; when the response is OK
    and its body parses to the object [user], the promise the call returned
    is fulfilled with [user] and [user] is the cached user; a second call
    then returns a promise fulfilled with the same [user] and makes no
    network call. *)
Theorem user_is_fetched_once_then_cached (s : State) (tok : string)
    (fields : list (string * JsValue)) :
  reachable s →
  ToBoolean (currentUser s) = false →
  fetchPromise s = None →
  localStorage s !! "access_token" = Some tok → tok ≠ "" →
  let user := JObj fields in
  let rid := length (network s) in
  ∃ q1 s1 s3 q2 s4,
    getCurrentUser s = (q1, s1) ∧
    network s1 = network s ++
      [mkRequest "/api/users/me" [("Authorization", "Bearer " +:+ tok)]] ∧
    run [FetchSettles rid (Resolve (mkResponse true));
         JsonSettles rid (Resolve user)] s1 = Some s3 ∧
    promises s3 !! q1 = Some (Fulfilled user) ∧
    currentUser s3 = user ∧
    getCurrentUser s3 = (q2, s4) ∧
    promises s4 !! q2 = Some (Fulfilled user) ∧
    currentUser s4 = user ∧
    network s4 = network s1.
Proof.
  intros Hr Hu Hm Htok Hne user rid.
  pose proof (fetch_completes s tok user Hr Hu Hm Htok Hne) as Hrun.
  pose proof (fresh_fetch s tok Hr Hu Hm Htok Hne) as Hcall.
  pose proof (reachable_run _ _ _ (reachable_call _ Hr) Hrun) as Hr3.
  pose proof (getCurrentUser_cached _
    (Inv_heap_closed _ (reachable_Inv _ Hr3)) eq_refl) as Hcall2.
  rewrite Hcall in Hrun. cbn [snd] in Hrun.
  eexists _, _, _, _, _.
  split; [exact Hcall|]. split; [reflexivity|]. split; [exact Hrun|].
  split; [apply lookup_fresh_pair|]. split; [reflexivity|].
  split; [exact Hcall2|]. cbn [promises currentUser network].
  split; [|done]. by rewrite lookup_app_r, Nat.sub_diag by lia.
Qed.

Lemma user_is_fetched_once_then_cached_witness :
  let s := signed_in in
  let user := alice in
  ∃ q1 s1 s3 q2 s4,
    getCurrentUser s = (q1, s1) ∧
    run [FetchSettles 0 (Resolve (mkResponse true));
         JsonSettles 0 (Resolve user)] s1 = Some s3 ∧
    promises s3 !! q1 = Some (Fulfilled user) ∧
    getCurrentUser s3 = (q2, s4) ∧
    promises s4 !! q2 = Some (Fulfilled user) ∧
    length (network s4) = 1.
Proof.
  intros s user.
  destruct (user_is_fetched_once_then_cached s "t"
              [("id", JNum 1); ("name", JStr "A")])
    as (q1 & s1 & s3 & q2 & s4 & H1 & Hn & Hrun & Hp & _ & H2 & Hp2 & _ & Hn4).
  - apply reachable_initial.
  - reflexivity.
  - reflexivity.
  - reflexivity.
  - discriminate.
  - exists q1, s1, s3, q2, s4. split; [exact H1|]. split; [exact Hrun|].
    split; [exact Hp|]. split; [exact H2|]. split; [exact Hp2|].
    rewrite Hn4, Hn. reflexivity.
Defined.

(** C5.  With nothing cached, nothing pending and no entry [access_token] in
    localStorage, the call returns a promise that is already fulfilled with
    [null]; no network call is made, no arrow function is started and the
    module's state is otherwise as before. *)
Theorem no_token_no_request (s : State) :
  reachable s →
  ToBoolean (currentUser s) = false →
  fetchPromise s = None →
  localStorage s !! "access_token" = None →
  ∃ q s', getCurrentUser s = (q, s') ∧
          promises s' !! q = Some (Fulfilled JNull) ∧
          network s' = network s ∧ tasks s' = tasks s ∧
          fetchPromise s' = None ∧ currentUser s' = currentUser s ∧
          localStorage s' = localStorage s.
Proof.
  intros Hr Hu Hm Htok. eexists _, _. split.
  { apply getCurrentUser_no_token; try done.
    - by apply Inv_heap_closed, reachable_Inv.
    - by rewrite Htok. }
  simpl. split; [|done]. by rewrite lookup_app_r, Nat.sub_diag by lia.
Qed.

Lemma no_token_no_request_witness :
  let s := initial ∅ "/app" in
  ∃ q s', getCurrentUser s = (q, s') ∧
          promises s' !! q = Some (Fulfilled JNull) ∧ network s' = [].
Proof.
  intros s.
  destruct (no_token_no_request s) as (q & s' & Hc & Hp & Hn & _).
  - apply reachable_initial.
  - reflexivity.
  - reflexivity.
  - reflexivity.
  - exists q, s'. split; [exact Hc|]. split; [exact Hp|exact Hn].
Defined.

(** C9.  Start as in C4, but let the OK response's body parse to a falsy
    value [body] ([null], [false], [0] or the empty string).  The promise of
    the first call is fulfilled with [body] and [body] is stored as the
    cached user; still the next call does not answer from the cache: it
    makes a second network call and returns a promise that follows a new
    pending fetch. *)
Theorem falsy_user_is_not_cached (s : State) (tok : string) (body : JsValue) :
  reachable s →
  ToBoolean (currentUser s) = false →
  fetchPromise s = None →
  localStorage s !! "access_token" = Some tok → tok ≠ "" →
  ToBoolean body = false →
  let rid := length (network s) in
  let request :=
    mkRequest "/api/users/me" [("Authorization", "Bearer " +:+ tok)] in
  ∃ q1 s1 s3 q2 s4 p,
    getCurrentUser s = (q1, s1) ∧
    run [FetchSettles rid (Resolve (mkResponse true));
         JsonSettles rid (Resolve body)] s1 = Some s3 ∧
    promises s3 !! q1 = Some (Fulfilled body) ∧
    currentUser s3 = body ∧
    network s3 = network s ++ [request] ∧
    getCurrentUser s3 = (q2, s4) ∧
    network s4 = network s ++ [request; request] ∧
    fetchPromise s4 = Some p ∧
    promises s4 !! p = Some Pending ∧
    promises s4 !! q2 = Some (Following p).
Proof.
  intros Hr Hu Hm Htok Hne Hbody rid request.
  pose proof (fetch_completes s tok body Hr Hu Hm Htok Hne) as Hrun.
  pose proof (fresh_fetch s tok Hr Hu Hm Htok Hne) as Hcall.
  pose proof (reachable_run _ _ _ (reachable_call _ Hr) Hrun) as Hr3.
  pose proof (fresh_fetch _ tok Hr3 Hbody eq_refl Htok Hne) as Hcall2.
  rewrite Hcall in Hrun. cbn [snd] in Hrun.
  eexists _, _, _, _, _, _.
  split; [exact Hcall|]. split; [exact Hrun|].
  split; [apply lookup_fresh_pair|]. split; [reflexivity|].
  split; [reflexivity|]. split; [exact Hcall2|].
  cbn [promises currentUser network fetchPromise].
  split; [by rewrite <- app_assoc|]. split; [reflexivity|].
  split; apply lookup_fresh_pair.
Qed.

Lemma falsy_user_is_not_cached_witness :
  let s := signed_in in
  ∃ q1 s1 s3 q2 s4,
    getCurrentUser s = (q1, s1) ∧
    run [FetchSettles 0 (Resolve (mkResponse true));
         JsonSettles 0 (Resolve JNull)] s1 = Some s3 ∧
    promises s3 !! q1 = Some (Fulfilled JNull) ∧
    getCurrentUser s3 = (q2, s4) ∧
    length (network s3) = 1 ∧ length (network s4) = 2.
Proof.
  intros s.
  destruct (falsy_user_is_not_cached s "t" JNull)
    as (q1 & s1 & s3 & q2 & s4 & p & H1 & Hrun & Hp & _ & Hn3 & H2 & Hn4 & _).
  - apply reachable_initial.
  - reflexivity.
  - reflexivity.
  - reflexivity.
  - discriminate.
  - reflexivity.
  - exists q1, s1, s3, q2, s4. split; [exact H1|]. split; [exact Hrun|].
    split; [exact Hp|]. split; [exact H2|].
    rewrite Hn3, Hn4. split; reflexivity.
Defined.

(** ** The other exported functions *)

(** C7.  [logout] removes key [access_token] from localStorage, sets the
    cached user to [null], sets [window.location.href] to ["/"] and returns
    [undefined]; everything else is as before. *)
Theorem logout_effect (s : State) :
  logout s =
    (JUndefined,
     {| currentUser := JNull; fetchPromise := fetchPromise s;
        localStorage := delete "access_token" (localStorage s);
        location_href := "/"; console := console s;
        promises := promises s; network := network s; tasks := tasks s |}) ∧
  localStorage (logout s).2 !! "access_token" = None ∧
  (∀ key, key ≠ "access_token" →
     localStorage (logout s).2 !! key = localStorage s !! key).
Proof.
  split; [reflexivity|]. simpl. split.
  - apply lookup_delete_eq.
  - intros key Hk. by apply lookup_delete_ne.
Qed.

(** C8, as the code has it.  [clearUserCache] sets the cached user to
    [null] and changes nothing else: the stored token, the marker, the
    promises and the network log are as before.  The next call fetches again
    only when no fetch is pending (as is the case whenever a user was
    cached) and a non-empty token is stored: it then makes a network call
    that carries the unchanged token and returns a promise that follows the
    new pending fetch. *)
Theorem clearUserCache_effect (s : State) :
  clearUserCache s =
    (JUndefined,
     {| currentUser := JNull; fetchPromise := fetchPromise s;
        localStorage := localStorage s; location_href := location_href s;
        console := console s; promises := promises s; network := network s;
        tasks := tasks s |}) ∧
  (reachable s →
   ToBoolean (currentUser s) = true ∨ fetchPromise s = None →
   ∀ tok, localStorage s !! "access_token" = Some tok → tok ≠ "" →
   ∃ q s' p,
     getCurrentUser (clearUserCache s).2 = (q, s') ∧
     network s' = network s ++
       [mkRequest "/api/users/me" [("Authorization", "Bearer " +:+ tok)]] ∧
     localStorage s' = localStorage s ∧
     fetchPromise s' = Some p ∧
     promises s' !! p = Some Pending ∧
     promises s' !! q = Some (Following p)).
Proof.
  split; [reflexivity|]. intros Hr Hidle tok Htok Hne.
  assert (fetchPromise s = None) as Hm.
  { destruct Hidle as [Hu|]; [|done].
    destruct (fetchPromise s) as [p|] eqn:Hm; [|done].
    destruct (in_flight_marker _ _ (inv_flight _ (reachable_Inv _ Hr)) Hm)
      as (_ & _ & _ & _ & Hu' & _). congruence. }
  assert (reachable (clearUserCache s).2) as Hr'
    by by eapply (reachable_step s CallClearUserCache).
  pose proof (fresh_fetch _ tok Hr' eq_refl Hm Htok Hne) as Hcall.
  eexists _, _, _. split; [exact Hcall|].
  cbn [promises network fetchPromise localStorage snd clearUserCache].
  split; [reflexivity|]. split; [reflexivity|]. split; [reflexivity|].
  split; apply lookup_fresh_pair.
Qed.

Lemma clearUserCache_effect_witness :
  let user := alice in
    let s :=
    {| currentUser := user; fetchPromise := None;
       localStorage := {["access_token" := "t"]}; location_href := "/app";
       console := []; promises := [Fulfilled user; Fulfilled user];
       network := [identity_request]; tasks := [] |} in
  run [CallGetCurrentUser;
       FetchSettles 0 (Resolve (mkResponse true));
       JsonSettles 0 (Resolve user)]
      signed_in = Some s ∧
  ∃ q s', getCurrentUser (clearUserCache s).2 = (q, s') ∧
          network s' = [identity_request; identity_request].
Proof.
  intros user s.
  assert (run [CallGetCurrentUser;
               FetchSettles 0 (Resolve (mkResponse true));
               JsonSettles 0 (Resolve user)]
              signed_in = Some s) as Hrun
    by reflexivity.
  split; [exact Hrun|].
  destruct (clearUserCache_effect s) as [_ H].
  destruct (H (reachable_run _ _ _ (reachable_initial _ _) Hrun)
              (or_introl eq_refl) "t" eq_refl ltac:(discriminate))
    as (q & s' & p & Hc & Hn & _).
  exists q, s'. split; [exact Hc|exact Hn].
Defined.

(** C8 as stated fails in two ways.  While a fetch is pending, the call
    after [clearUserCache] stops at lines 10-12: it joins the fetch that was
    started before and makes no network call, though the token is unchanged.
    And with no token stored it returns [null] at line 16 without a network
    call. *)
Lemma no_refetch_after_clearUserCache :
  let pending :=
    {| currentUser := JNull; fetchPromise := Some 1;
       localStorage := {["access_token" := "t"]}; location_href := "/app";
       console := []; promises := [Following 1; Pending];
       network := [identity_request];
       tasks := [mkTask 1 0 AwaitFetch] |} in
  let signed_out := initial ∅ "/app" in
  (run [CallGetCurrentUser] signed_in = Some pending ∧
   localStorage (clearUserCache pending).2 !! "access_token" = Some "t" ∧
   network (getCurrentUser (clearUserCache pending).2).2 = network pending ∧
   promises (getCurrentUser (clearUserCache pending).2).2
     !! (getCurrentUser (clearUserCache pending).2).1 = Some (Following 1)) ∧
  (network (getCurrentUser (clearUserCache signed_out).2).2 = [] ∧
   promises (getCurrentUser (clearUserCache signed_out).2).2
     !! (getCurrentUser (clearUserCache signed_out).2).1
     = Some (Fulfilled JNull)).
Proof.
  intros pending signed_out. repeat split; by vm_compute.
Qed.

(** C10.  [logout] does not touch the marker, the suspended arrow function
    or the promises.  So when it is called while a fetch is pending the
    marker still holds the pending promise and the cached user is [null];
    when that fetch then gets an OK response with body [user], the cached
    user becomes [user] although [getCurrentUser] was not called again and
    the token is gone. *)
Theorem logout_leaves_fetch_pending (s : State) :
  fetchPromise (logout s).2 = fetchPromise s ∧
  tasks (logout s).2 = tasks s ∧
  promises (logout s).2 = promises s ∧
  (reachable s →
   ∀ p rid a user, mkTask p rid a ∈ tasks s →
     fetchPromise (logout s).2 = Some p ∧
     currentUser (logout s).2 = JNull ∧
     ∃ s',
       run (match a with
            | AwaitFetch => [FetchSettles rid (Resolve (mkResponse true));
                             JsonSettles rid (Resolve user)]
            | AwaitJson => [JsonSettles rid (Resolve user)]
            end) (logout s).2 = Some s' ∧
       currentUser s' = user ∧
       localStorage s' !! "access_token" = None ∧
       fetchPromise s' = None ∧
       promises s' !! p = Some (Fulfilled user)).
Proof.
  split; [reflexivity|]. split; [reflexivity|]. split; [reflexivity|].
  intros Hr p rid a user Ht.
  destruct (only_task _ _ Hr Ht) as (Hts & Hm & Hp & Hu). simpl in Hm, Hp.
  split; [exact Hm|]. split; [reflexivity|].
  assert (settled_heap p (Fulfilled user) (promises s) !! p
          = Some (Fulfilled user)) as Hdone
    by (apply settled_heap_self; [by eapply lookup_lt_Some|done]).
  destruct a; cbn [run].
  - erewrite step_fetch_ok by exact Hts.
    erewrite step_json_ok by reflexivity. eexists. split; [reflexivity|].
    simpl. repeat split; try done. apply lookup_delete_eq.
  - erewrite step_json_ok by exact Hts. eexists. split; [reflexivity|].
    simpl. repeat split; try done. apply lookup_delete_eq.
Qed.

Lemma logout_leaves_fetch_pending_witness :
  let s := (getCurrentUser signed_in).2 in
  let user := alice in
  reachable s ∧ mkTask 1 0 AwaitFetch ∈ tasks s ∧
  fetchPromise (logout s).2 = Some 1 ∧
  ∃ s', run [FetchSettles 0 (Resolve (mkResponse true));
             JsonSettles 0 (Resolve user)] (logout s).2 = Some s' ∧
        currentUser s' = user.
Proof.
  intros s user.
  assert (reachable s) as Hr by apply reachable_call, reachable_initial.
  assert (mkTask 1 0 AwaitFetch ∈ tasks s) as Ht by (left).
  split; [exact Hr|]. split; [exact Ht|].
  destruct (logout_leaves_fetch_pending s) as (_ & _ & _ & H).
  destruct (H Hr 1 0 AwaitFetch user Ht) as (Hm & _ & s' & Hrun & Hu & _).
  split; [exact Hm|]. exists s'. split; [exact Hrun|exact Hu].
Defined.

(** ** The marker after the fetch *)

Lemma bystander_run es :
  ∀ s t, forallb bystander es = true → run es s = Some t →
         fetchPromise t = fetchPromise s.
Proof.
  induction es as [|e es IH]; intros s t; simpl.
  - by intros _ [= <-].
  - intros [He Hes]%andb_prop.
    destruct (step e s) as [s1|] eqn:E; [|done]. intros Hrun.
    rewrite (IH _ _ Hes Hrun).
    destruct e as [| | | | | | |key [value|]]; try done; by injection E as <-.
Qed.

(** C6, as the code has it.  Whichever way the pending fetch ends (a non-OK
    response, a rejected [fetch], a parsed body or a rejected
    [response.json()]), the step that ends it sets the marker to [null] and
    settles the promise of the fetch.  A later call, the first call of
    [getCurrentUser] after that step, that finds no cached user and a
    non-empty stored token makes a new network call and follows a new
    pending promise, not the settled one. *)
Theorem marker_cleared_on_every_outcome (s : State) (p rid : nat)
    (a : AwaitPoint) (e : Event) :
  reachable s →
  mkTask p rid a ∈ tasks s →
  ends_fetch rid a e →
  ∃ s', step e s = Some s' ∧
        fetchPromise s' = None ∧ tasks s' = [] ∧
        is_settled (promises s' !! p) = true ∧
        ∀ es t tok,
          forallb bystander es = true → run es s' = Some t →
          ToBoolean (currentUser t) = false →
          localStorage t !! "access_token" = Some tok → tok ≠ "" →
          ∃ q t' p',
            getCurrentUser t = (q, t') ∧
            network t' = network t ++
              [mkRequest "/api/users/me" [("Authorization", "Bearer " +:+ tok)]] ∧
            fetchPromise t' = Some p' ∧
            promises t !! p' = None ∧
            promises t' !! p' = Some Pending ∧
            promises t' !! q = Some (Following p').
Proof.
  intros Hr Ht He. destruct (only_task _ _ Hr Ht) as (Hts & Hm & Hp & Hu).
  simpl in Hm, Hp.
  assert (∃ s' v, step e s = Some s' ∧ fetchPromise s' = None ∧ tasks s' = [] ∧
                  promises s' = settled_heap p (Fulfilled v) (promises s))
    as (s' & v & Hs & Hm' & Hts' & Hh').
  { destruct a, e as [| | | | |rid' [response|err]|rid' [body|err]|key value];
      simpl in He; try done.
    - destruct He as [-> Hok]. destruct response as [[]]; [done|].
      eexists _, JNull. split; [by apply step_fetch_not_ok|done].
    - subst rid'. eexists _, JNull.
      split; [by apply step_fetch_rejected|done].
    - subst rid'. eexists _, body. split; [by apply step_json_ok|done].
    - subst rid'. eexists _, JNull.
      split; [by apply step_json_rejected|done]. }
  exists s'. split; [done|]. split; [done|]. split; [done|]. split.
  { rewrite Hh', settled_heap_self; [done| |done]. by eapply lookup_lt_Some. }
  intros es t tok Hes Hrun Hut Htok Hne.
  assert (reachable t) as Hrt.
  { eapply reachable_run; [|exact Hrun]. by eapply reachable_step. }
  assert (fetchPromise t = None) as Hmt
    by by rewrite (bystander_run _ _ _ Hes Hrun).
  eexists _, _, _. split; [by apply (fresh_fetch t tok)|].
  cbn [network fetchPromise promises].
  split; [done|]. split; [done|].
  split; [apply lookup_ge_None_2; lia|].
  split; apply lookup_fresh_pair.
Qed.

Lemma marker_cleared_on_every_outcome_witness :
  let s := (getCurrentUser signed_in).2 in
  let e := FetchSettles 0 (Resolve (mkResponse false)) in
  reachable s ∧ mkTask 1 0 AwaitFetch ∈ tasks s ∧ ends_fetch 0 AwaitFetch e ∧
  ∃ s' t, step e s = Some s' ∧ fetchPromise s' = None ∧
          run [CallSetToken "u"] s' = Some t ∧
          ∃ q t', getCurrentUser t = (q, t') ∧
                  network t' = network t ++
                    [mkRequest "/api/users/me" [("Authorization", "Bearer u")]].
Proof.
  intros s e.
  assert (reachable s) as Hr by apply reachable_call, reachable_initial.
  assert (mkTask 1 0 AwaitFetch ∈ tasks s) as Ht by (left).
  split; [exact Hr|]. split; [exact Ht|]. split; [by split|].
  destruct (marker_cleared_on_every_outcome s 1 0 AwaitFetch e Hr Ht)
    as (s' & Hs & Hm & _ & _ & Hnext); [by split|].
  exists s', (setToken "u" s').2.
  split; [exact Hs|]. split; [exact Hm|]. split; [reflexivity|].
  injection Hs as <-.
  destruct (Hnext [CallSetToken "u"] _ "u" eq_refl eq_refl eq_refl eq_refl
              ltac:(discriminate))
    as (q & t' & p' & Hc & Hn & _).
  exists q, t'. split; [exact Hc|exact Hn].
Defined.

(** C6 as stated fails after a non-OK response: that outcome removes the
    token (line 32), so the next call, which finds the marker [null] and no
    cached user, returns [null] at line 16 and makes no network call. *)
Lemma no_refetch_after_not_ok :
  let s0 := signed_in in
  ∃ s, run [CallGetCurrentUser;
            FetchSettles 0 (Resolve (mkResponse false))] s0 = Some s ∧
       fetchPromise s = None ∧
       currentUser s = JNull ∧
       network (getCurrentUser s).2 = network s ∧
       length (network (getCurrentUser s).2) ≠ S (length (network s)) ∧
       promises (getCurrentUser s).2 !! (getCurrentUser s).1
         = Some (Fulfilled JNull).
Proof.
  intros s0. eexists. split; [reflexivity|].
  split; [reflexivity|]. split; [reflexivity|]. split; [reflexivity|].
  split; [by vm_compute|reflexivity].
Qed.

(** * Further properties *)

(** ** One case per way a step can go *)

(** In a reachable state, split [Hs : step e s = Some s'] into the thirteen
    ways the step can go and put the resulting state in place of [s']. *)
Ltac step_cases Hr Hs :=
  match type of Hs with
  | step ?e ?s = Some ?s' =>
      let HI := fresh "HI" in
      let Hone := fresh "Hone" in
      pose proof (reachable_Inv _ Hr) as HI;
      pose proof (in_flight_at_most_one _ (inv_flight _ HI)) as Hone;
      destruct e as [| | |?token| |?rid ?o|?rid ?o|?key [?value|]];
      [ injection Hs as <-;
        destruct (ToBoolean (currentUser s)) eqn:?Hu;
        [ rewrite (getCurrentUser_cached s (Inv_heap_closed _ HI)) by done
        | destruct (fetchPromise s) as [?p|] eqn:?Hm;
          [ match goal with
            | Hm' : fetchPromise s = Some ?p |- _ =>
                destruct (in_flight_marker _ _ (inv_flight _ HI) Hm')
                  as (?rid & ?a & ?Ht & ?Hp & _);
                rewrite (getCurrentUser_joins s p) by done
            end
          | match goal with
            | Hm' : fetchPromise s = None |- _ =>
                pose proof (in_flight_idle _ (inv_flight _ HI) Hm') as ?Ht
            end;
            destruct (ToBoolean (item_value (localStorage s !! "access_token")))
              eqn:?Htok;
            [ rewrite (getCurrentUser_fetches s) by done
            | rewrite (getCurrentUser_no_token s (Inv_heap_closed _ HI))
                by done ] ] ]
      | injection Hs as <-
      | injection Hs as <-
      | injection Hs as <-
      | injection Hs as <-
      | destruct (step_fetch_enabled _ _ _ _ Hone Hs) as [?p ?Ht];
        destruct o as [[[]]|?err];
        [ rewrite (step_fetch_ok s _ _ ltac:(eassumption)) in Hs
        | rewrite (step_fetch_not_ok s _ _ ltac:(eassumption)) in Hs
        | rewrite (step_fetch_rejected s _ _ _ ltac:(eassumption)) in Hs ];
        injection Hs as <-
      | destruct (step_json_enabled _ _ _ _ Hone Hs) as [?p ?Ht];
        destruct o as [?body|?err];
        [ rewrite (step_json_ok s _ _ _ ltac:(eassumption)) in Hs
        | rewrite (step_json_rejected s _ _ _ ltac:(eassumption)) in Hs ];
        injection Hs as <-
      | injection Hs as <-
      | injection Hs as <- ]
  end.

(** For a goal [∃ s', run es s = Some s' ∧ _] on closed [es] and [s]: run
    the events and go on with the state they lead to. *)
Ltac after_run :=
  match goal with
  | |- ∃ s', ?r = Some s' ∧ _ =>
      let nf := eval vm_compute in r in
      match nf with
      | Some ?s1 => exists s1; split; [by vm_compute|]
      end
  end.

Lemma usable_token_inv (o : option string) :
  ToBoolean (item_value o) = true → ∃ tok, o = Some tok ∧ tok ≠ "".
Proof. destruct o as [[|c tok]|]; try done. intros _. by eexists. Qed.

(** ** What goes over the network *)

Lemma step_network s e s' :
  reachable s → step e s = Some s' →
  network s' = network s ∨
  (e = CallGetCurrentUser ∧ ∃ r, identity_call r ∧ network s' = network s ++ [r]).
Proof.
  intros Hr Hs. step_cases Hr Hs; simpl; try by left.
  right. split; [done|]. apply usable_token_inv in Htok as (tok & -> & Hne).
  eexists. split; [|reflexivity]. by exists tok.
Qed.

(** X7.  Every network call the module has made goes to the identity
    endpoint and carries exactly one header, [Authorization], with a
    non-empty bearer token: no call is ever made without a token. *)
Theorem every_request_carries_a_token (s : State) :
  reachable s → Forall identity_call (network s).
Proof.
  induction 1 as [storage href|s e s' Hr IH Hs]; [by constructor|].
  destruct (step_network _ _ _ Hr Hs) as [->|(_ & r & Hid & ->)]; [done|].
  apply Forall_app. split; [done|]. by constructor.
Qed.

Lemma every_request_carries_a_token_witness :
  reachable (getCurrentUser signed_in).2 ∧
  Forall identity_call (network (getCurrentUser signed_in).2).
Proof.
  assert (reachable (getCurrentUser signed_in).2) as Hr
    by apply reachable_call, reachable_initial.
  split; [exact Hr|]. exact (every_request_carries_a_token _ Hr).
Defined.

(** X13.  The module never fetches on its own: over any run, the network
    log grows by at most one entry per call of [getCurrentUser], and only
    grows. *)
Theorem at_most_one_request_per_call (es : list Event) (s s' : State) :
  reachable s → run es s = Some s' →
  length (network s) ≤ length (network s') ∧
  length (network s') ≤ length (network s) + length (filter is_call es).
Proof.
  revert s. induction es as [|e es IH]; intros s Hr; cbn [run].
  { intros [= <-]. lia. }
  destruct (step e s) as [s1|] eqn:Hs; [|done]. intros Hrun.
  destruct (IH _ (reachable_step _ _ _ Hr Hs) Hrun) as [Hlo Hhi].
  rewrite filter_cons.
  destruct (step_network _ _ _ Hr Hs) as [Hn|(-> & r & _ & Hn)];
    rewrite Hn in *.
  - split; [done|]. case_decide; simpl; lia.
  - rewrite length_app in *. simpl in *. lia.
Qed.

Lemma at_most_one_request_per_call_witness :
  ∃ s', run [CallGetCurrentUser; CallGetCurrentUser; CallLogout] signed_in
          = Some s' ∧
        length (network s') ≤ 2.
Proof.
  after_run.
  refine (proj2 (at_most_one_request_per_call
                   [CallGetCurrentUser; CallGetCurrentUser; CallLogout]
                   signed_in _ (reachable_initial _ _) _)).
  by vm_compute.
Defined.

(** ** What is written to the console *)

Lemma step_console s e s' :
  reachable s → step e s = Some s' →
  (console s' = console s ∧
   length (tasks s') + length (network s) ≤ length (tasks s) + length (network s')) ∨
  (∃ err, console s' = console s ++ [("Error fetching current user:", err)] ∧
          length (tasks s) = 1 ∧ tasks s' = [] ∧ network s' = network s).
Proof.
  intros Hr Hs. step_cases Hr Hs; simpl;
    try (left; split; [done|]; simpl; lia);
    try (right; eexists; rewrite Ht; by repeat split).
  - left. split; [done|]. rewrite Ht, !length_app. simpl. lia.
  - left. split; [done|]. rewrite Ht. simpl. lia.
Qed.

(** X8.  The console only ever receives the message of line 35, and at most
    once per network call: the logged faults and the fetches still pending
    together never outnumber the network calls made. *)
Theorem at_most_one_log_line_per_request (s : State) :
  reachable s →
  Forall (λ entry, entry.1 = "Error fetching current user:") (console s) ∧
  length (console s) + length (tasks s) ≤ length (network s).
Proof.
  induction 1 as [storage href|s e s' Hr [IHm IHn] Hs].
  { split; [by constructor|simpl; lia]. }
  destruct (step_console _ _ _ Hr Hs)
    as [[-> Hle]|(err & -> & Hone & -> & ->)].
  - split; [done|]. lia.
  - split.
    + apply Forall_app. split; [done|]. by constructor.
    + rewrite length_app. simpl. lia.
Qed.

Lemma at_most_one_log_line_per_request_witness :
  ∃ s', run [CallGetCurrentUser;
             FetchSettles 0 (Reject (mkError "TypeError" "Failed to fetch"))]
            signed_in = Some s' ∧
        length (console s') + length (tasks s') ≤ length (network s').
Proof.
  after_run.
  refine (proj2 (at_most_one_log_line_per_request _
    (reachable_run
       [CallGetCurrentUser;
        FetchSettles 0 (Reject (mkError "TypeError" "Failed to fetch"))]
       signed_in _ (reachable_initial _ _) _))).
  by vm_compute.
Defined.

(** ** What the module leaves alone *)

Lemma step_storage s e s' key :
  reachable s → step e s = Some s' →
  module_event e = true → key ≠ "access_token" →
  localStorage s' !! key = localStorage s !! key.
Proof.
  intros Hr Hs He Hk. step_cases Hr Hs; simpl; try done.
  - by apply lookup_delete_ne.
  - by apply lookup_insert_ne.
  - by apply lookup_delete_ne.
Qed.

(** X9.  Of the shared localStorage the module touches the entry
    [access_token] only: over any run of its own code, every other key
    keeps its value. *)
Theorem other_keys_untouched (es : list Event) (s s' : State) (key : string) :
  reachable s → run es s = Some s' →
  forallb module_event es = true → key ≠ "access_token" →
  localStorage s' !! key = localStorage s !! key.
Proof.
  revert s. induction es as [|e es IH]; intros s Hr; cbn [run forallb].
  { by intros [= <-]. }
  destruct (step e s) as [s1|] eqn:Hs; [|done].
  intros Hrun [He Hes]%andb_prop Hk.
  rewrite (IH _ (reachable_step _ _ _ Hr Hs) Hrun Hes Hk).
  by eapply step_storage.
Qed.

Lemma other_keys_untouched_witness :
  let s := initial {["access_token" := "t"; "theme" := "dark"]} "/app" in
  let s' :=
    {| currentUser := JNull; fetchPromise := None;
       localStorage := {["theme" := "dark"]}; location_href := "/";
       console := []; promises := [Fulfilled JNull; Fulfilled JNull];
       network := [identity_request]; tasks := [] |} in
  run [CallGetCurrentUser;
       FetchSettles 0 (Resolve (mkResponse false));
       CallLogout] s = Some s' ∧
  localStorage s' !! "theme" = localStorage s !! "theme".
Proof.
  intros s s'.
  assert (run [CallGetCurrentUser;
               FetchSettles 0 (Resolve (mkResponse false));
               CallLogout] s = Some s') as Hrun by (by vm_compute).
  split; [exact Hrun|].
  apply (other_keys_untouched _ s s' "theme" (reachable_initial _ _) Hrun);
    [reflexivity|discriminate].
Defined.

Lemma step_location s e s' :
  reachable s → step e s = Some s' →
  location_href s' = if is_logout e then "/" else location_href s.
Proof. intros Hr Hs. by step_cases Hr Hs. Qed.

(** X10.  The module navigates on [logout] and never otherwise: after any
    run the location is ["/"] if the run contains a [logout] and is the
    location the run started from if it does not. *)
Theorem navigation_only_on_logout (es : list Event) (s s' : State) :
  reachable s → run es s = Some s' →
  location_href s' = if existsb is_logout es then "/" else location_href s.
Proof.
  revert s. induction es as [|e es IH]; intros s Hr; cbn [run existsb].
  { by intros [= <-]. }
  destruct (step e s) as [s1|] eqn:Hs; [|done]. intros Hrun.
  rewrite (IH _ (reachable_step _ _ _ Hr Hs) Hrun).
  rewrite (step_location _ _ _ Hr Hs).
  by destruct (is_logout e), (existsb is_logout es).
Qed.

Lemma navigation_only_on_logout_witness :
  ∃ s', run [CallGetCurrentUser;
             FetchSettles 0 (Resolve (mkResponse false));
             CallGetCurrentUser] signed_in = Some s' ∧
        location_href s' = "/app".
Proof.
  after_run.
  refine (navigation_only_on_logout
            [CallGetCurrentUser;
             FetchSettles 0 (Resolve (mkResponse false));
             CallGetCurrentUser] signed_in _ (reachable_initial _ _) _).
  by vm_compute.
Defined.

(** ** What callers hold *)

Lemma step_keeps_result s e s' q v :
  reachable s → step e s = Some s' →
  promises s !! q = Some (Fulfilled v) →
  promises s' !! q = Some (Fulfilled v).
Proof.
  intros Hr Hs Hq.
  assert (∀ p w, fetchPromise s = Some p →
            settled_heap p (Fulfilled w) (promises s) !! q = Some (Fulfilled v))
    as Hkeep.
  { intros p w Hm. rewrite settle_keeps; try done. by rewrite Hq. }
  pose proof (lookup_lt_Some _ _ _ Hq) as Hlt.
  step_cases Hr Hs; simpl; try done;
    try (by rewrite lookup_app_l);
    try (destruct (only_task s _ Hr ltac:(rewrite Ht; left)) as (_ & Hm & _);
         by apply Hkeep).
Qed.

(** X11.  A result that has been delivered never changes: a promise that is
    fulfilled with [v] is still fulfilled with [v] after any run, whatever
    is fetched, cleared or logged out later. *)
Theorem delivered_results_are_final (es : list Event) (s s' : State)
    (q : nat) (v : JsValue) :
  reachable s → run es s = Some s' →
  promises s !! q = Some (Fulfilled v) →
  promises s' !! q = Some (Fulfilled v).
Proof.
  revert s. induction es as [|e es IH]; intros s Hr; cbn [run].
  { by intros [= <-]. }
  destruct (step e s) as [s1|] eqn:Hs; [|done]. intros Hrun Hq.
  apply (IH _ (reachable_step _ _ _ Hr Hs) Hrun).
  by eapply step_keeps_result.
Qed.

Lemma delivered_results_are_final_witness :
  let s :=
    {| currentUser := alice; fetchPromise := None;
       localStorage := {["access_token" := "t"]}; location_href := "/app";
       console := []; promises := [Fulfilled alice; Fulfilled alice];
       network := [identity_request]; tasks := [] |} in
  run [CallGetCurrentUser;
       FetchSettles 0 (Resolve (mkResponse true));
       JsonSettles 0 (Resolve alice)] signed_in = Some s ∧
  ∃ s', run [CallLogout; CallSetToken "u"; CallGetCurrentUser;
             FetchSettles 1 (Resolve (mkResponse false))] s = Some s' ∧
        promises s' !! 0 = Some (Fulfilled alice).
Proof.
  intros s.
  assert (run [CallGetCurrentUser;
               FetchSettles 0 (Resolve (mkResponse true));
               JsonSettles 0 (Resolve alice)] signed_in = Some s) as Hrun
    by (by vm_compute).
  split; [exact Hrun|]. after_run.
  refine (delivered_results_are_final
            [CallLogout; CallSetToken "u"; CallGetCurrentUser;
             FetchSettles 1 (Resolve (mkResponse false))] s _ 0 alice
            (reachable_run _ _ _ (reachable_initial _ _) Hrun) _ eq_refl).
  by vm_compute.
Defined.

Lemma tasks_have_requests s : reachable s → tasks s ≠ [] → network s ≠ [].
Proof.
  intros Hr%reachable_Inv Ht. destruct Hr as [Hf _ _ _]. unfold in_flight in Hf.
  destruct (tasks s) as [|t [|]]; [done| |done].
  destruct Hf as (_ & _ & _ & Hlt). intros Hn. rewrite Hn in Hlt.
  simpl in Hlt. lia.
Qed.

(** X15.  The module never caches a user it did not fetch: whenever the
    cached user is not [null], at least one network call has been made. *)
Theorem cached_user_was_fetched (s : State) :
  reachable s → currentUser s ≠ JNull → network s ≠ [].
Proof.
  intros Hr Hu. cut (currentUser s = JNull ∨ network s ≠ []).
  { intros [H|H]; [congruence|exact H]. }
  clear Hu. induction Hr as [storage href|s e s' Hr IH Hs]; [by left|].
  pose proof (tasks_have_requests s Hr) as Htask.
  assert (∀ r, network s ++ [r] ≠ []) as Happ by (by intros r [_ ?]%app_nil).
  step_cases Hr Hs; cbn [currentUser network snd]; auto.
  all: right; apply Htask; by rewrite Ht.
Qed.

Lemma cached_user_was_fetched_witness :
  let s :=
    {| currentUser := alice; fetchPromise := None;
       localStorage := {["access_token" := "t"]}; location_href := "/app";
       console := []; promises := [Fulfilled alice; Fulfilled alice];
       network := [identity_request]; tasks := [] |} in
  run [CallGetCurrentUser;
       FetchSettles 0 (Resolve (mkResponse true));
       JsonSettles 0 (Resolve alice)] signed_in = Some s ∧
  currentUser s ≠ JNull ∧ network s ≠ [].
Proof.
  intros s.
  assert (run [CallGetCurrentUser;
               FetchSettles 0 (Resolve (mkResponse true));
               JsonSettles 0 (Resolve alice)] signed_in = Some s) as Hrun
    by (by vm_compute).
  assert (currentUser s ≠ JNull) as Hu by discriminate.
  split; [exact Hrun|]. split; [exact Hu|].
  exact (cached_user_was_fetched s
           (reachable_run _ _ _ (reachable_initial _ _) Hrun) Hu).
Defined.

(** ** The token accessors *)

(** X1.  [getToken] reads back what [setToken] stored and changes nothing;
    of two [setToken]s the later one wins; [setToken] writes the entry
    [access_token] and nothing else: not the cached user, not the marker,
    not another key. *)
Theorem setToken_getToken (s : State) (t t' : string) :
  getToken (setToken t s).2 = (JStr t, (setToken t s).2) ∧
  (setToken t' (setToken t s).2).2 = (setToken t' s).2 ∧
  setToken t s =
    (JUndefined,
     {| currentUser := currentUser s; fetchPromise := fetchPromise s;
        localStorage := <["access_token" := t]> (localStorage s);
        location_href := location_href s; console := console s;
        promises := promises s; network := network s; tasks := tasks s |}) ∧
  (∀ key, key ≠ "access_token" →
     localStorage (setToken t s).2 !! key = localStorage s !! key).
Proof.
  split; [|split; [|split; [reflexivity|]]].
  - unfold getToken, setToken. exec. by rewrite lookup_insert_eq.
  - unfold setToken. exec. by rewrite insert_insert_eq.
  - intros key Hk. simpl. by apply lookup_insert_ne.
Qed.

(** X2.  After [logout] there is no token: [getToken] returns [null], and
    unless a fetch is still pending [getCurrentUser] returns a promise that
    is already fulfilled with [null] and makes no network call. *)
Theorem logged_out (s : State) :
  (getToken (logout s).2).1 = JNull ∧
  (reachable s → fetchPromise s = None →
   ∃ q s', getCurrentUser (logout s).2 = (q, s') ∧
           promises s' !! q = Some (Fulfilled JNull) ∧
           network s' = network s ∧ fetchPromise s' = None).
Proof.
  split.
  { unfold getToken, logout. exec. by rewrite lookup_delete_eq. }
  intros Hr Hm.
  assert (reachable (logout s).2) as Hr'
    by by eapply (reachable_step s CallLogout).
  eexists _, _. split.
  { apply getCurrentUser_no_token; try done.
    - by apply Inv_heap_closed, reachable_Inv.
    - simpl. by rewrite lookup_delete_eq. }
  simpl. split; [|done]. by rewrite lookup_app_r, Nat.sub_diag by lia.
Qed.

Lemma logged_out_witness :
  let s :=
    {| currentUser := alice; fetchPromise := None;
       localStorage := {["access_token" := "t"]}; location_href := "/app";
       console := []; promises := [Fulfilled alice; Fulfilled alice];
       network := [identity_request]; tasks := [] |} in
  run [CallGetCurrentUser;
       FetchSettles 0 (Resolve (mkResponse true));
       JsonSettles 0 (Resolve alice)] signed_in = Some s ∧
  ∃ q s', getCurrentUser (logout s).2 = (q, s') ∧
          promises s' !! q = Some (Fulfilled JNull) ∧
          network s' = [identity_request].
Proof.
  intros s.
  assert (run [CallGetCurrentUser;
               FetchSettles 0 (Resolve (mkResponse true));
               JsonSettles 0 (Resolve alice)] signed_in = Some s) as Hrun
    by (by vm_compute).
  split; [exact Hrun|].
  destruct (logged_out s) as [_ H].
  destruct (H (reachable_run _ _ _ (reachable_initial _ _) Hrun) eq_refl)
    as (q & s' & Hc & Hp & Hn & _).
  exists q, s'. split; [exact Hc|]. split; [exact Hp|exact Hn].
Defined.

(** X3.  Signing in again: after [logout] and [setToken t] with a non-empty
    [t], and no fetch pending, [getCurrentUser] fetches with the new token;
    nothing of the previous session is served. *)
Theorem sign_in_again (s : State) (t : string) :
  reachable s → fetchPromise s = None → t ≠ "" →
  ∃ q s' p,
    getCurrentUser (setToken t (logout s).2).2 = (q, s') ∧
    network s' = network s ++
      [mkRequest "/api/users/me" [("Authorization", "Bearer " +:+ t)]] ∧
    fetchPromise s' = Some p ∧
    promises s' !! p = Some Pending ∧
    promises s' !! q = Some (Following p).
Proof.
  intros Hr Hm Hne.
  assert (reachable (setToken t (logout s).2).2) as Hr'.
  { eapply (reachable_step _ (CallSetToken t)); [|reflexivity].
    by eapply (reachable_step s CallLogout). }
  eexists _, _, _. split.
  { apply (fresh_fetch _ t Hr'); try done. simpl. apply lookup_insert_eq. }
  simpl. split; [done|]. split; [done|]. split; apply lookup_fresh_pair.
Qed.

Lemma sign_in_again_witness :
  reachable signed_in ∧
  ∃ q s', getCurrentUser (setToken "u" (logout signed_in).2).2 = (q, s') ∧
          network s' =
            [mkRequest "/api/users/me" [("Authorization", "Bearer u")]].
Proof.
  split; [apply reachable_initial|].
  destruct (sign_in_again signed_in "u" (reachable_initial _ _) eq_refl
              ltac:(discriminate))
    as (q & s' & p & Hc & Hn & _).
  exists q, s'. split; [exact Hc|exact Hn].
Defined.

(** X14.  The empty string is no token: after [setToken ""], with nothing
    cached and nothing pending, [getCurrentUser] returns a promise already
    fulfilled with [null] and makes no network call, although [getToken]
    returns the stored empty string and not [null]. *)
Theorem empty_token_is_no_token (s : State) :
  reachable s →
  ToBoolean (currentUser s) = false →
  fetchPromise s = None →
  (getToken (setToken "" s).2).1 = JStr "" ∧
  ∃ q s', getCurrentUser (setToken "" s).2 = (q, s') ∧
          promises s' !! q = Some (Fulfilled JNull) ∧
          network s' = network s ∧ fetchPromise s' = None.
Proof.
  intros Hr Hu Hm. split.
  { unfold getToken, setToken. exec. by rewrite lookup_insert_eq. }
  assert (reachable (setToken "" s).2) as Hr'
    by by eapply (reachable_step s (CallSetToken "")).
  eexists _, _. split.
  { apply getCurrentUser_no_token; try done.
    - by apply Inv_heap_closed, reachable_Inv.
    - simpl. by rewrite lookup_insert_eq. }
  simpl. split; [|done]. by rewrite lookup_app_r, Nat.sub_diag by lia.
Qed.

Lemma empty_token_is_no_token_witness :
  reachable signed_in ∧
  ∃ q s', getCurrentUser (setToken "" signed_in).2 = (q, s') ∧
          promises s' !! q = Some (Fulfilled JNull) ∧ network s' = [].
Proof.
  split; [apply reachable_initial|].
  destruct (empty_token_is_no_token signed_in (reachable_initial _ _)
              eq_refl eq_refl)
    as (_ & q & s' & Hc & Hp & Hn & _).
  exists q, s'. split; [exact Hc|]. split; [exact Hp|exact Hn].
Defined.

(** ** What a new token does not do *)

(** X4.  [setToken] does not refresh the cached user: while a user is
    cached, [getCurrentUser] after [setToken] still returns that user and
    makes no network call, whatever the new token is. *)
Theorem new_token_keeps_cached_user (s : State) (t : string) :
  reachable s → ToBoolean (currentUser s) = true →
  ∃ q s', getCurrentUser (setToken t s).2 = (q, s') ∧
          promises s' !! q = Some (Fulfilled (currentUser s)) ∧
          network s' = network s ∧
          currentUser s' = currentUser s.
Proof.
  intros Hr Hu.
  assert (reachable (setToken t s).2) as Hr'
    by by eapply (reachable_step s (CallSetToken t)).
  eexists _, _. split.
  { apply getCurrentUser_cached; [|done].
    by apply Inv_heap_closed, reachable_Inv. }
  simpl. split; [|done]. by rewrite lookup_app_r, Nat.sub_diag by lia.
Qed.

Lemma new_token_keeps_cached_user_witness :
  let s :=
    {| currentUser := alice; fetchPromise := None;
       localStorage := {["access_token" := "t"]}; location_href := "/app";
       console := []; promises := [Fulfilled alice; Fulfilled alice];
       network := [identity_request]; tasks := [] |} in
  run [CallGetCurrentUser;
       FetchSettles 0 (Resolve (mkResponse true));
       JsonSettles 0 (Resolve alice)] signed_in = Some s ∧
  ∃ q s', getCurrentUser (setToken "u" s).2 = (q, s') ∧
          promises s' !! q = Some (Fulfilled alice) ∧
          network s' = [identity_request].
Proof.
  intros s.
  assert (run [CallGetCurrentUser;
               FetchSettles 0 (Resolve (mkResponse true));
               JsonSettles 0 (Resolve alice)] signed_in = Some s) as Hrun
    by (by vm_compute).
  split; [exact Hrun|].
  destruct (new_token_keeps_cached_user s "u"
              (reachable_run _ _ _ (reachable_initial _ _) Hrun) eq_refl)
    as (q & s' & Hc & Hp & Hn & _).
  exists q, s'. split; [exact Hc|]. split; [exact Hp|exact Hn].
Defined.

Lemma bystander_step_network s e s' :
  reachable s → step e s = Some s' → bystander e = true →
  network s' = network s.
Proof.
  intros Hr Hs He.
  destruct (step_network _ _ _ Hr Hs) as [Hn|[-> _]]; done.
Qed.

Lemma bystander_run_network es :
  ∀ s s', reachable s → run es s = Some s' → forallb bystander es = true →
          network s' = network s.
Proof.
  induction es as [|e es IH]; intros s s' Hr; cbn [run forallb].
  { by intros [= <-]. }
  destruct (step e s) as [s1|] eqn:Hs; [|done].
  intros Hrun [He Hes]%andb_prop.
  rewrite (IH _ _ (reachable_step _ _ _ Hr Hs) Hrun Hes).
  by eapply bystander_step_network.
Qed.

(** X5.  A pending fetch is not restarted: whatever is done while it is
    pending ([logout], [setToken], [clearUserCache], writes to
    localStorage), the next [getCurrentUser] makes no network call and
    returns a promise that follows the fetch that was started with the
    earlier token. *)
Theorem pending_fetch_is_joined (es : list Event) (s s1 : State) (p : nat) :
  reachable s → fetchPromise s = Some p →
  forallb bystander es = true → run es s = Some s1 →
  ∃ q s2, getCurrentUser s1 = (q, s2) ∧
          promises s2 !! q = Some (Following p) ∧
          network s2 = network s ∧
          fetchPromise s2 = Some p.
Proof.
  intros Hr Hm Hes Hrun.
  pose proof (reachable_run _ _ _ Hr Hrun) as Hr1.
  assert (fetchPromise s1 = Some p) as Hm1
    by by rewrite (bystander_run _ _ _ Hes Hrun).
  destruct (in_flight_marker _ _ (inv_flight _ (reachable_Inv _ Hr1)) Hm1)
    as (rid & a & _ & Hp & Hu & _).
  eexists _, _. split; [by apply (getCurrentUser_joins s1 p)|].
  simpl. split; [by rewrite lookup_app_r, Nat.sub_diag by lia|].
  split; [|done]. by apply (bystander_run_network es).
Qed.

Lemma pending_fetch_is_joined_witness :
  let s := (getCurrentUser signed_in).2 in
  reachable s ∧ fetchPromise s = Some 1 ∧
  ∃ s1, run [CallLogout; CallSetToken "u"; CallClearUserCache] s = Some s1 ∧
        ∃ q s2, getCurrentUser s1 = (q, s2) ∧
                promises s2 !! q = Some (Following 1) ∧
                network s2 = [identity_request].
Proof.
  intros s.
  assert (reachable s) as Hr by apply reachable_call, reachable_initial.
  split; [exact Hr|]. split; [reflexivity|].
  after_run.
  destruct (pending_fetch_is_joined
              [CallLogout; CallSetToken "u"; CallClearUserCache] s _ 1
              Hr eq_refl eq_refl ltac:(by vm_compute))
    as (q & s2 & Hc & Hp & Hn & _).
  exists q, s2. split; [exact Hc|]. split; [exact Hp|exact Hn].
Defined.

(** X6.  A non-OK response discards whatever token is stored when it
    arrives: a token written by [setToken] while the fetch for the earlier
    token was pending is removed as well. *)
Theorem late_token_is_discarded (s : State) (p rid : nat) (t : string) :
  reachable s →
  mkTask p rid AwaitFetch ∈ tasks s →
  ∃ s', run [CallSetToken t;
             FetchSettles rid (Resolve (mkResponse false))] s = Some s' ∧
        localStorage s' !! "access_token" = None ∧
        (getToken s').1 = JNull ∧
        network s' = network s.
Proof.
  intros Hr Ht. destruct (only_task _ _ Hr Ht) as (Hts & _).
  cbn [run]. change (step (CallSetToken t) s) with (Some (setToken t s).2).
  cbn iota. erewrite step_fetch_not_ok by exact Hts.
  eexists. split; [reflexivity|]. simpl.
  split; [apply lookup_delete_eq|]. split; [|done].
  unfold getToken. exec. by rewrite lookup_delete_eq.
Qed.

Lemma late_token_is_discarded_witness :
  let s := (getCurrentUser signed_in).2 in
  reachable s ∧ mkTask 1 0 AwaitFetch ∈ tasks s ∧
  ∃ s', run [CallSetToken "u";
             FetchSettles 0 (Resolve (mkResponse false))] s = Some s' ∧
        localStorage s' !! "access_token" = None.
Proof.
  intros s.
  assert (reachable s) as Hr by apply reachable_call, reachable_initial.
  assert (mkTask 1 0 AwaitFetch ∈ tasks s) as Ht by (left).
  split; [exact Hr|]. split; [exact Ht|].
  destruct (late_token_is_discarded s 1 0 "u" Hr Ht)
    as (s' & Hrun & Hd & _).
  exists s'. split; [exact Hrun|exact Hd].
Defined.

(** X16.  An OK response does not end the fetch: until the body has been
    parsed the marker stays set, nothing is cached, the token and the
    promises are untouched, and a call of [getCurrentUser] still joins the
    pending fetch without a network call. *)
Theorem ok_response_keeps_fetch_pending (s : State) (p rid : nat) :
  reachable s →
  mkTask p rid AwaitFetch ∈ tasks s →
  ∃ s', step (FetchSettles rid (Resolve (mkResponse true))) s = Some s' ∧
        tasks s' = [mkTask p rid AwaitJson] ∧
        fetchPromise s' = Some p ∧
        currentUser s' = currentUser s ∧
        localStorage s' = localStorage s ∧
        promises s' = promises s ∧
        ∃ q s2, getCurrentUser s' = (q, s2) ∧
                promises s2 !! q = Some (Following p) ∧
                network s2 = network s.
Proof.
  intros Hr Ht. destruct (only_task _ _ Hr Ht) as (Hts & Hm & Hp & Hu).
  eexists. split; [by apply step_fetch_ok|]. simpl.
  do 5 (split; [done|]).
  eexists _, _. split; [by apply (getCurrentUser_joins _ p)|].
  simpl. split; [|done]. by rewrite lookup_app_r, Nat.sub_diag by lia.
Qed.

Lemma ok_response_keeps_fetch_pending_witness :
  let s := (getCurrentUser signed_in).2 in
  reachable s ∧ mkTask 1 0 AwaitFetch ∈ tasks s ∧
  ∃ s', step (FetchSettles 0 (Resolve (mkResponse true))) s = Some s' ∧
        fetchPromise s' = Some 1 ∧ currentUser s' = JNull.
Proof.
  intros s.
  assert (reachable s) as Hr by apply reachable_call, reachable_initial.
  assert (mkTask 1 0 AwaitFetch ∈ tasks s) as Ht by (left).
  split; [exact Hr|]. split; [exact Ht|].
  destruct (ok_response_keeps_fetch_pending s 1 0 Hr Ht)
    as (s' & Hs & _ & Hm & Hu & _).
  exists s'. split; [exact Hs|]. split; [exact Hm|exact Hu].
Defined.
